(** * Rooted-tree rearrangement (src/tree/rtree_operations.c)

    A shallow embedding of the pointer surgery of [rtree_operations.c]:
    the nodes live in a heap indexed by their identity, every C statement
    is a step of a small state monad, and the undefined behaviours of C
    (dereferencing NULL or a pointer to no node, writing past the caller's
    buffer, signed overflow) and failed assertions are outcomes of their
    own. *)

From Stdlib Require Import ZArith Lia.
From stdpp Require Import base option list gmap.

Local Open Scope Z_scope.

(** ** Data model *)

(** The identity of an allocated [pll_rtree_t]. *)
Definition addr := nat.

(** A [pll_rtree_t *]: [None] is NULL. *)
Definition ptr := option addr.

(** The three link fields of [pll_rtree_t]; the functions of
    [rtree_operations.c] touch no other field. *)
Record pll_rtree_t := mk_rtree {
  left : ptr;
  right : ptr;
  parent : ptr
}.

(** A non-NULL [pll_rtree_t **] as the code builds them: the address of
    the [left] or of the [right] field of a node. *)
Inductive slot :=
| LeftOf (p : addr)
| RightOf (p : addr).

(** Modelled from the spec: the error kinds InvalidTree, InvalidNode and
    InvalidRange, whose numeric values are given by a header that is not
    part of the sources. *)
Inductive pllmod_error :=
| PLLMOD_TREE_ERROR_INVALID_TREE
| PLLMOD_TREE_ERROR_SPR_INVALID_NODE
| PLLMOD_ERROR_INVALID_RANGE.

(** Modelled from the spec: the two values of an [int] status; the code
    only ever tests them with [!]. *)
Inductive pll_status := PLL_SUCCESS | PLL_FAILURE.

(** Modelled from the spec: the move kind of a rollback record
    ("currently SPR"); the header declaring the other kinds is not part of
    the sources. *)
Inductive rearrange_kind :=
| PLLMOD_TREE_REARRANGE_SPR
| PLLMOD_TREE_REARRANGE_OTHER.

(** Modelled from the spec: the fields of [pll_tree_rollback_t] that
    [pllmod_rtree_spr] assigns. *)
Record pll_tree_rollback_t := mk_rollback {
  rearrange_type : rearrange_kind;
  rooted : Z;
  SPR_prune_edge : ptr;
  SPR_regraft_edge : ptr
}.

(** The memory the functions work on: the nodes and the process-wide
    error register ([None] is 0, no error). *)
Record state := mk_state {
  heap : gmap addr pll_rtree_t;
  pll_errno : option pllmod_error
}.

#[global] Instance pllmod_error_eq_dec : EqDecision pllmod_error.
Proof. solve_decision. Defined.
#[global] Instance pll_status_eq_dec : EqDecision pll_status.
Proof. solve_decision. Defined.
#[global] Instance slot_eq_dec : EqDecision slot.
Proof. solve_decision. Defined.
#[global] Instance pll_rtree_t_eq_dec : EqDecision pll_rtree_t.
Proof. solve_decision. Defined.

(** ** The monad of C statements *)

(** How a call ends: it returns [a] in the state [s]; it runs into
    undefined behaviour; an assertion stops it; or a loop was cut off
    before it ended. *)
Inductive result (A : Type) :=
| Done (a : A) (s : state)
| Undefined
| Aborted
| Unfinished.
Arguments Done {A} a s.
Arguments Undefined {A}.
Arguments Aborted {A}.
Arguments Unfinished {A}.

Definition M (A : Type) : Type := state -> result A.

#[global] Instance M_ret : MRet M := fun A a s => Done a s.
#[global] Instance M_bind : MBind M := fun A B f m s =>
  match m s with
  | Done a s' => f a s'
  | Undefined => Undefined
  | Aborted => Aborted
  | Unfinished => Unfinished
  end.

Definition undefined {A} : M A := fun _ => Undefined.
Definition unfinished {A} : M A := fun _ => Unfinished.

(** [assert(e)], with assertions compiled in. *)
Definition assert (b : bool) : M unit :=
  fun s => if b then Done tt s else Aborted.

(** [*p] for a node pointer. *)
Definition load (p : ptr) : M pll_rtree_t := fun s =>
  match p with
  | None => Undefined
  | Some a => match heap s !! a with
              | Some nd => Done nd s
              | None => Undefined
              end
  end.

Definition store (a : addr) (nd : pll_rtree_t) : M unit := fun s =>
  Done tt (mk_state (<[a := nd]> (heap s)) (pll_errno s)).

(** [p->parent], [p->left], [p->right]. *)
Definition get_parent (p : ptr) : M ptr := nd ← load p; mret (parent nd).
Definition get_left (p : ptr) : M ptr := nd ← load p; mret (left nd).
Definition get_right (p : ptr) : M ptr := nd ← load p; mret (right nd).

(** [p->parent = v]. *)
Definition set_parent (p : ptr) (v : ptr) : M unit :=
  nd ← load p;
  match p with
  | Some a => store a (mk_rtree (left nd) (right nd) v)
  | None => undefined
  end.

(** [*sl] and [*sl = v] for a [pll_rtree_t **]; a NULL slot pointer is
    [None]. *)
Definition load_slot (sl : option slot) : M ptr :=
  match sl with
  | None => undefined
  | Some (LeftOf p) => get_left (Some p)
  | Some (RightOf p) => get_right (Some p)
  end.

Definition store_slot (sl : option slot) (v : ptr) : M unit :=
  match sl with
  | None => undefined
  | Some (LeftOf p) =>
      nd ← load (Some p); store p (mk_rtree v (right nd) (parent nd))
  | Some (RightOf p) =>
      nd ← load (Some p); store p (mk_rtree (left nd) v (parent nd))
  end.

(** The node a child cell belongs to. *)
Definition slot_owner (sl : slot) : addr :=
  match sl with LeftOf p | RightOf p => p end.

(** The content of a child cell, given the fields of its node. *)
Definition slot_field (sl : slot) (nd : pll_rtree_t) : ptr :=
  match sl with LeftOf _ => left nd | RightOf _ => right nd end.

(** The fields of a node once [v] is written to one of its child cells. *)
Definition slot_update (sl : slot) (v : ptr) (nd : pll_rtree_t) : pll_rtree_t :=
  match sl with
  | LeftOf _ => mk_rtree v (right nd) (parent nd)
  | RightOf _ => mk_rtree (left nd) v (parent nd)
  end.

(** The other child cell of the same node. *)
Definition slot_other (sl : slot) : slot :=
  match sl with LeftOf p => RightOf p | RightOf p => LeftOf p end.

(** Modelled from the spec: [pllmod_set_error] fills the process-wide
    "last error" register; its definition is not part of the sources. *)
Definition pllmod_set_error (e : pllmod_error) : M unit := fun s =>
  Done tt (mk_state (heap s) (Some e)).

(** [assert(pll_errno)]. *)
Definition assert_errno : M unit := fun s =>
  match pll_errno s with
  | Some _ => Done tt s
  | None => Aborted
  end.

Definition ptr_eqb (p q : ptr) : bool := bool_decide (p = q).

(** ** pllmod_rtree_get_sister

    The result carries the status and the values the function stores
    through [self] and [sister] when the caller passes those. *)
Definition pllmod_rtree_get_sister (node : ptr)
  : M (pll_status * option slot * option slot) :=
  par ← get_parent node;
  match par with
  | None => mret (PLL_SUCCESS, None, None)
  | Some p =>
      l ← get_left par;
      if ptr_eqb l node then mret (PLL_SUCCESS, Some (LeftOf p), Some (RightOf p))
      else
        r ← get_right par;
        if ptr_eqb r node then mret (PLL_SUCCESS, Some (RightOf p), Some (LeftOf p))
        else
          _ ← pllmod_set_error PLLMOD_TREE_ERROR_INVALID_TREE;
          mret (PLL_FAILURE, None, None)
  end.

(** ** pllmod_rtree_prune *)
Definition pllmod_rtree_prune (node : ptr) : M ptr :=
  _ ← assert (bool_decide (is_Some node));
  par ← get_parent node;
  match par with
  | None =>
      _ ← pllmod_set_error PLLMOD_TREE_ERROR_SPR_INVALID_NODE;
      mret None
  | Some _ =>
      '(st, self_ptr, sister_ptr) ← pllmod_rtree_get_sister node;
      match st with
      | PLL_FAILURE => mret None
      | PLL_SUCCESS =>
          _ ← assert (bool_decide (is_Some self_ptr) && bool_decide (is_Some sister_ptr));
          np ← get_parent node;
          gp ← get_parent np;
          match gp with
          | Some _ =>
              (* connect parent->parent and sister *)
              np ← get_parent node;
              connected_node ← get_parent np;
              np ← get_parent node;
              '(st, parent_ptr, _) ← pllmod_rtree_get_sister np;
              match st with
              | PLL_FAILURE => mret None
              | PLL_SUCCESS =>
                  _ ← assert (bool_decide (is_Some parent_ptr));
                  (* the cell parent_ptr receives the content of the cell sister_ptr *)
                  sis ← load_slot sister_ptr;
                  _ ← store_slot parent_ptr sis;
                  (* the sister's parent becomes node->parent->parent *)
                  sis ← load_slot sister_ptr;
                  np ← get_parent node;
                  npp ← get_parent np;
                  _ ← set_parent sis npp;
                  (* disconnect pruned tree *)
                  _ ← store_slot sister_ptr None;
                  np ← get_parent node;
                  _ ← set_parent np None;
                  mret connected_node
              end
          | None =>
              (* re-root *)
              connected_node ← load_slot sister_ptr;
              (* disconnect pruned tree *)
              _ ← store_slot sister_ptr None;
              mret connected_node
          end
      end
  end.

(** ** pllmod_rtree_regraft *)
Definition pllmod_rtree_regraft (node tree : ptr) : M pll_status :=
  (* node must contain a detached parent *)
  np ← get_parent node;
  bad ← match np with
        | None => mret true
        | Some _ => npp ← get_parent np; mret (bool_decide (is_Some npp))
        end;
  if (bad : bool) then
    _ ← pllmod_set_error PLLMOD_TREE_ERROR_SPR_INVALID_NODE;
    mret PLL_FAILURE
  else
    parent_node ← get_parent node;
    tp ← get_parent tree;
    '(st, edge_from_parent) ←
      match tp with
      | Some _ =>
          '(st, self_ptr, _) ← pllmod_rtree_get_sister tree;
          mret (st, self_ptr)
      | None => mret (PLL_SUCCESS, None)
      end;
    match st with
    | PLL_FAILURE => _ ← assert_errno; mret PLL_FAILURE
    | PLL_SUCCESS =>
        '(st, _, edge_to_child) ← pllmod_rtree_get_sister tree;
        match st with
        | PLL_FAILURE => _ ← assert_errno; mret PLL_FAILURE
        | PLL_SUCCESS =>
            (* set new parents *)
            tp ← get_parent tree;
            _ ← set_parent parent_node tp;
            _ ← set_parent tree parent_node;
            (* set new children *)
            tp ← get_parent tree;
            _ ← match tp with
                | Some _ => store_slot edge_from_parent parent_node
                | None => mret tt
                end;
            _ ← store_slot edge_to_child tree;
            mret PLL_SUCCESS
        end
    end.

(** ** pllmod_rtree_spr

    [root] is the caller's [pll_rtree_t **]: [None] when NULL, otherwise
    the content of the cell it points to; [rollback_info] likewise.  The
    result returns both cells as the call leaves them. *)

(** The loop resetting the root, cut off after [fuel] iterations. *)
Fixpoint spr_reset_root (fuel : nat) (root : option ptr) : M (option ptr) :=
  match root with
  | None => mret None
  | Some r =>
      rp ← get_parent r;
      match rp with
      | None => mret root
      | Some _ =>
          match fuel with
          | O => unfinished
          | S fuel' => spr_reset_root fuel' (Some rp)
          end
      end
  end.

(** The first statements of [pllmod_rtree_spr], up to and including the
    block that saves the rollback information. *)
Definition spr_save_rollback (p_node : ptr)
    (rollback_info : option pll_tree_rollback_t)
  : M (pll_status * option pll_tree_rollback_t) :=
  '(st, self_ptr, sister_ptr) ← pllmod_rtree_get_sister p_node;
  match st with
  | PLL_FAILURE => _ ← assert_errno; mret (PLL_FAILURE, rollback_info)
  | PLL_SUCCESS =>
      _ ← assert (bool_decide (is_Some self_ptr) && bool_decide (is_Some sister_ptr));
      match rollback_info with
      | Some _ =>
          sis ← load_slot sister_ptr;
          mret (PLL_SUCCESS,
                Some (mk_rollback PLLMOD_TREE_REARRANGE_SPR 1 p_node sis))
      | None => mret (PLL_SUCCESS, None)
      end
  end.

Definition pllmod_rtree_spr (fuel : nat) (p_node r_tree : ptr)
    (root : option ptr) (rollback_info : option pll_tree_rollback_t)
  : M (pll_status * option ptr * option pll_tree_rollback_t) :=
  '(st, rollback_info) ← spr_save_rollback p_node rollback_info;
  match st with
  | PLL_FAILURE => mret (PLL_FAILURE, root, rollback_info)
  | PLL_SUCCESS =>
      connected ← pllmod_rtree_prune p_node;
      match connected with
      | None => _ ← assert_errno; mret (PLL_FAILURE, root, rollback_info)
      | Some _ =>
          pp ← get_parent p_node;
          st ← pllmod_rtree_regraft pp r_tree;
          match st with
          | PLL_FAILURE =>
              _ ← assert_errno; mret (PLL_FAILURE, root, rollback_info)
          | PLL_SUCCESS =>
              (* reset root in case it has changed *)
              root ← spr_reset_root fuel root;
              mret (PLL_SUCCESS, root, rollback_info)
          end
      end
  end.

(** ** The bounded-distance enumerator *)

(** [int] is taken to be 32 bits wide; leaving its range is undefined. *)
Definition INT_MIN : Z := -2147483648.

(** [x - 1] on [int]. *)
Definition int_pred (x : Z) : M Z :=
  if x - 1 <? INT_MIN then undefined else mret (x - 1).

(** The caller's [outbuffer] (its length is its capacity) with the
    [unsigned int] counter [*n_nodes]. *)
Definition outbuf : Type := list ptr * Z.

(** [outbuffer[*n_nodes] = x; *n_nodes = *n_nodes + 1;] *)
Definition emit (x : ptr) (ob : outbuf) : M outbuf :=
  let '(buf, n) := ob in
  if bool_decide (Z.to_nat n < length buf)%nat
  then mret (<[Z.to_nat n := x]> buf, (n + 1) mod 4294967296)
  else undefined.

(** [rtree_nodes_at_node_dist_down]; [depth] bounds the nesting of the
    recursive calls. *)
Fixpoint rtree_nodes_at_node_dist_down_rec (depth : nat) (root : ptr)
    (ob : outbuf) (min_distance max_distance : Z) : M outbuf :=
  if max_distance <? 0 then mret ob
  else
    ob ← (if min_distance <? 0 then emit root ob else mret ob);
    l ← get_left root;
    both ← match l with
           | None => mret false
           | Some _ => r ← get_right root; mret (bool_decide (is_Some r))
           end;
    if negb both then mret ob
    else
      match depth with
      | O => unfinished
      | S depth' =>
          l ← get_left root;
          min1 ← int_pred min_distance;
          max1 ← int_pred max_distance;
          ob ← rtree_nodes_at_node_dist_down_rec depth' l ob min1 max1;
          r ← get_right root;
          min1 ← int_pred min_distance;
          max1 ← int_pred max_distance;
          rtree_nodes_at_node_dist_down_rec depth' r ob min1 max1
      end.

(** Every call lowers [max_distance] by one and returns at once below
    zero, so [max_distance + 1] nested calls are all there can be. *)
Definition rtree_nodes_at_node_dist_down (root : ptr) (ob : outbuf)
    (min_distance max_distance : Z) : M outbuf :=
  rtree_nodes_at_node_dist_down_rec (Z.to_nat (max_distance + 1))
    root ob min_distance max_distance.

(** The [while (current_root->parent)] loop of
    [pllmod_rtree_nodes_at_node_dist], cut off after [fuel] iterations. *)
Fixpoint nodes_at_node_dist_loop (fuel : nat) (current_root : ptr)
    (ob : outbuf) (min_distance max_distance : Z) : M (pll_status * outbuf) :=
  cp ← get_parent current_root;
  match cp with
  | None => mret (PLL_SUCCESS, ob)
  | Some _ =>
      match fuel with
      | O => unfinished
      | S fuel' =>
          '(st, _, sister_ptr) ← pllmod_rtree_get_sister current_root;
          match st with
          | PLL_FAILURE => _ ← assert_errno; mret (PLL_FAILURE, ob)
          | PLL_SUCCESS =>
              min_distance ← int_pred min_distance;
              max_distance ← int_pred max_distance;
              current_root ← get_parent current_root;
              ob ← (if min_distance <? 0 then emit current_root ob
                    else mret ob);
              sis ← load_slot sister_ptr;
              min1 ← int_pred min_distance;
              max1 ← int_pred max_distance;
              ob ← rtree_nodes_at_node_dist_down sis ob min1 max1;
              nodes_at_node_dist_loop fuel' current_root ob
                min_distance max_distance
          end
      end
  end.

Definition pllmod_rtree_nodes_at_node_dist (fuel : nat) (root : ptr)
    (ob : outbuf) (min_distance max_distance : Z) : M (pll_status * outbuf) :=
  if max_distance <? min_distance then
    _ ← pllmod_set_error PLLMOD_ERROR_INVALID_RANGE;
    mret (PLL_FAILURE, ob)
  else
    nodes_at_node_dist_loop fuel root (ob.1, 0) min_distance max_distance.

(** ** Invariant I1

    Every node that has a parent is held by exactly one of the two child
    cells of that parent. *)
Definition I1_at (h : gmap addr pll_rtree_t) (n : addr) : bool :=
  match h !! n with
  | None => true
  | Some nd =>
      match parent nd with
      | None => true
      | Some p =>
          match h !! p with
          | None => false
          | Some pd =>
              xorb (ptr_eqb (left pd) (Some n)) (ptr_eqb (right pd) (Some n))
          end
      end
  end.

Definition I1 (s : state) : bool :=
  forallb (I1_at (heap s)) (map_to_list (heap s)).*1.

(** [path_to_root h n l]: [l] lists the ancestors of [n] from its parent
    up to the root, every link being consistent in both directions. *)
Inductive path_to_root (h : gmap addr pll_rtree_t) : addr → list addr → Prop :=
| path_root n nd :
    h !! n = Some nd → parent nd = None → path_to_root h n []
| path_step n nd p pd l :
    h !! n = Some nd → parent nd = Some p → h !! p = Some pd →
    left pd = Some n ∨ right pd = Some n →
    path_to_root h p l → path_to_root h n (p :: l).

(** ** What the enumerator lists *)

(** A subtree as the descent walks it: a node below which the descent
    stops (a child is missing), or a node with its two subtrees. *)
Inductive shape :=
| Leaf (a : addr)
| Node (a : addr) (l r : shape).

Definition root_of (t : shape) : addr :=
  match t with Leaf a | Node a _ _ => a end.

(** The heap holds the subtree [t]. *)
Fixpoint in_heap (h : gmap addr pll_rtree_t) (t : shape) : Prop :=
  match t with
  | Leaf a => ∃ nd, h !! a = Some nd ∧ (left nd = None ∨ right nd = None)
  | Node a l r =>
      ∃ nd, h !! a = Some nd ∧
            left nd = Some (root_of l) ∧ right nd = Some (root_of r) ∧
            in_heap h l ∧ in_heap h r
  end.

(** The nodes of [t], in preorder, whose depth lies in the window
    [lo < depth ≤ hi], the root of [t] being at depth [d]. *)
Fixpoint window (t : shape) (d lo hi : Z) : list addr :=
  (if bool_decide (lo < d ≤ hi) then [root_of t] else []) ++
  match t with
  | Leaf _ => []
  | Node _ l r => window l (d + 1) lo hi ++ window r (d + 1) lo hi
  end.

(** The caller's buffer and counter once the nodes [out] have been written
    from index [i] on. *)
Definition written (buf : list ptr) (i : nat) (out : list addr) : outbuf :=
  (take i buf ++ (Some <$> out) ++ drop (i + length out) buf,
   Z.of_nat (i + length out)).



(** ** Concrete trees *)

Module Example5.
(** The tree of five nodes: the root [R] has the children [A] and [B],
    and [B] has the children [C] and [D]. *)
Definition R : addr := 1%nat.
Definition A : addr := 2%nat.
Definition B : addr := 3%nat.
Definition C : addr := 4%nat.
Definition D : addr := 5%nat.

Definition nodes : list (addr * pll_rtree_t) :=
  [ (R, mk_rtree (Some A) (Some B) None);
    (A, mk_rtree None None (Some R));
    (B, mk_rtree (Some C) (Some D) (Some R));
    (C, mk_rtree None None (Some B));
    (D, mk_rtree None None (Some B)) ].

Definition tree : state := mk_state (list_to_map nodes) None.

(** The same nodes once [C] has been pruned: [D] has taken the place of
    [B] under the root, and [B] is a parentless node whose only child is
    [C]. *)
Definition pruned_C : state :=
  mk_state
    (list_to_map
       [ (R, mk_rtree (Some A) (Some D) None);
         (A, mk_rtree None None (Some R));
         (B, mk_rtree (Some C) None None);
         (C, mk_rtree None None (Some B));
         (D, mk_rtree None None (Some R)) ])
    None.

(** What [pllmod_rtree_regraft] makes of [pruned_C] when [C] is
    regrafted onto [A]: the root holds [B] and [A], [A] names [B] as its
    parent, and the second cell of [B] is still empty. *)
Definition regrafted_C_onto_A : state :=
  mk_state
    (list_to_map
       [ (R, mk_rtree (Some B) (Some A) None);
         (A, mk_rtree None None (Some B));
         (B, mk_rtree (Some C) None (Some R));
         (C, mk_rtree None None (Some B));
         (D, mk_rtree None None (Some R)) ])
    None.

(** What it makes of [pruned_C] when [C] is regrafted back onto [D]. *)
Definition regrafted_C_onto_D : state :=
  mk_state
    (list_to_map
       [ (R, mk_rtree (Some D) (Some B) None);
         (A, mk_rtree None None (Some R));
         (B, mk_rtree (Some C) None (Some R));
         (C, mk_rtree None None (Some B));
         (D, mk_rtree None None (Some B)) ])
    None.

(** The nodes once [A] has been pruned: the root keeps [A] alone, and
    [B] still names the root as its parent. *)
Definition pruned_A : state :=
  mk_state
    (list_to_map
       [ (R, mk_rtree (Some A) None None);
         (A, mk_rtree None None (Some R));
         (B, mk_rtree (Some C) (Some D) (Some R));
         (C, mk_rtree None None (Some B));
         (D, mk_rtree None None (Some B)) ])
    None.
End Example5.

Module ExampleBroken.
(** An inconsistent heap: [B] and its children are as in [Example5], but
    the right cell of the root holds a sixth node [X] instead of [B],
    whose parent link still names the root. *)
Definition X : addr := 6%nat.

Definition nodes : list (addr * pll_rtree_t) :=
  [ (Example5.R, mk_rtree (Some Example5.A) (Some X) None);
    (Example5.A, mk_rtree None None (Some Example5.R));
    (Example5.B, mk_rtree (Some Example5.C) (Some Example5.D) (Some Example5.R));
    (Example5.C, mk_rtree None None (Some Example5.B));
    (Example5.D, mk_rtree None None (Some Example5.B));
    (X, mk_rtree None None (Some Example5.R)) ].

Definition tree : state := mk_state (list_to_map nodes) None.
End ExampleBroken.

Module ExampleShared.
(** A heap with a shared node: node 1 holds 2 and 4, node 2 (child of 1)
    holds 3 and 4, and 3 and 4 name 2 as their parent. *)
Definition nodes : list (addr * pll_rtree_t) :=
  [ (1%nat, mk_rtree (Some 2%nat) (Some 4%nat) None);
    (2%nat, mk_rtree (Some 3%nat) (Some 4%nat) (Some 1%nat));
    (3%nat, mk_rtree None None (Some 2%nat));
    (4%nat, mk_rtree None None (Some 2%nat)) ].

Definition tree : state := mk_state (list_to_map nodes) None.
End ExampleShared.

(** * Properties *)

Import Example5.


(** ** Running and inverting the monad *)

Section MonadLemmas.
Context {X Y : Type}.
Implicit Types (m : M X) (f : X → M Y) (s : state).

Lemma bind_run m f s a s' :
  m s = Done a s' → (m ≫= f) s = f a s'.
Proof. unfold mbind, M_bind. by intros ->. Qed.

Lemma bind_Done m f s b s'' :
  (m ≫= f) s = Done b s'' ↔ ∃ a s', m s = Done a s' ∧ f a s' = Done b s''.
Proof.
  unfold mbind, M_bind. split.
  - destruct (m s) as [a s'| | |] eqn:E; try done. eauto.
  - by intros (a & s' & -> & ?).
Qed.

Lemma mret_Done (a b : X) s s' :
  mret (M := M) a s = Done b s' ↔ a = b ∧ s = s'.
Proof. unfold mret, M_ret. split; [by intros [= -> ->] | by intros [-> ->]]. Qed.
End MonadLemmas.

Lemma bind_Unfinished {X Y} (m : M X) (f : X → M Y) s :
  (m ≫= f) s = Unfinished →
  m s = Unfinished ∨ ∃ a s', m s = Done a s' ∧ f a s' = Unfinished.
Proof.
  unfold mbind, M_bind. destruct (m s) as [a s'| | |]; try done; eauto.
Qed.

Lemma load_Done p s nd s' :
  load p s = Done nd s' ↔ ∃ a, p = Some a ∧ heap s !! a = Some nd ∧ s' = s.
Proof.
  unfold load. split.
  - destruct p as [a|]; [|done]. destruct (heap s !! a) eqn:E; [|done].
    intros [= <- <-]. eauto.
  - by intros (a & -> & -> & ->).
Qed.

Lemma get_parent_Done p s v s' :
  get_parent p s = Done v s' ↔
  ∃ a nd, p = Some a ∧ heap s !! a = Some nd ∧ v = parent nd ∧ s' = s.
Proof.
  unfold get_parent. rewrite bind_Done. split.
  - intros (nd & s0 & (a & -> & ? & ->)%load_Done & [= <- <-]). eauto 10.
  - intros (a & nd & -> & ? & -> & ->). exists nd, s. by rewrite load_Done; eauto.
Qed.

Lemma get_left_Done p s v s' :
  get_left p s = Done v s' ↔
  ∃ a nd, p = Some a ∧ heap s !! a = Some nd ∧ v = left nd ∧ s' = s.
Proof.
  unfold get_left. rewrite bind_Done. split.
  - intros (nd & s0 & (a & -> & ? & ->)%load_Done & [= <- <-]). eauto 10.
  - intros (a & nd & -> & ? & -> & ->). exists nd, s. by rewrite load_Done; eauto.
Qed.

Lemma get_right_Done p s v s' :
  get_right p s = Done v s' ↔
  ∃ a nd, p = Some a ∧ heap s !! a = Some nd ∧ v = right nd ∧ s' = s.
Proof.
  unfold get_right. rewrite bind_Done. split.
  - intros (nd & s0 & (a & -> & ? & ->)%load_Done & [= <- <-]). eauto 10.
  - intros (a & nd & -> & ? & -> & ->). exists nd, s. by rewrite load_Done; eauto.
Qed.

Lemma assert_Done b s u s' : assert b s = Done u s' ↔ b = true ∧ s' = s.
Proof.
  unfold assert. destruct b, u; split; try done.
  - by intros [= <-].
  - by intros [_ ->].
  - by intros [? _].
Qed.

Lemma assert_errno_Done s u s' :
  assert_errno s = Done u s' ↔ is_Some (pll_errno s) ∧ s' = s.
Proof.
  unfold assert_errno. destruct (pll_errno s), u; split; try done.
  - by intros [= <-].
  - by intros [_ ->].
  - by intros [[? [=]] _].
Qed.

Lemma set_error_Done e s u s' :
  pllmod_set_error e s = Done u s' ↔ s' = mk_state (heap s) (Some e).
Proof. unfold pllmod_set_error. destruct u. split; [by intros [= <-] | by intros ->]. Qed.

Lemma load_slot_Done sl s v s' :
  load_slot sl s = Done v s' ↔
  ∃ c nd, sl = Some c ∧ heap s !! slot_owner c = Some nd ∧
          v = slot_field c nd ∧ s' = s.
Proof.
  unfold load_slot. destruct sl as [[p|p]|]; simpl.
  - rewrite get_left_Done. split.
    + intros (a & nd & [= <-] & ? & -> & ->). by exists (LeftOf p), nd.
    + intros (c & nd & [= <-] & ? & -> & ->). by exists p, nd.
  - rewrite get_right_Done. split.
    + intros (a & nd & [= <-] & ? & -> & ->). by exists (RightOf p), nd.
    + intros (c & nd & [= <-] & ? & -> & ->). by exists p, nd.
  - split; [done | by intros (? & ? & [=] & _)].
Qed.

Lemma store_slot_Done sl v s u s' :
  store_slot sl v s = Done u s' ↔
  ∃ c nd, sl = Some c ∧ heap s !! slot_owner c = Some nd ∧
          s' = mk_state (<[slot_owner c := slot_update c v nd]> (heap s))
                        (pll_errno s).
Proof.
  unfold store_slot, store. destruct u, sl as [[p|p]|]; simpl.
  - rewrite bind_Done. split.
    + intros (nd & s0 & (a & [= <-] & ? & ->)%load_Done & [= <-]).
      by exists (LeftOf p), nd.
    + intros (c & nd & [= <-] & ? & ->). exists nd, s. by rewrite load_Done; eauto.
  - rewrite bind_Done. split.
    + intros (nd & s0 & (a & [= <-] & ? & ->)%load_Done & [= <-]).
      by exists (RightOf p), nd.
    + intros (c & nd & [= <-] & ? & ->). exists nd, s. by rewrite load_Done; eauto.
  - split; [done | by intros (? & ? & [=] & _)].
Qed.

Lemma set_parent_Done p v s u s' :
  set_parent p v s = Done u s' ↔
  ∃ a nd, p = Some a ∧ heap s !! a = Some nd ∧
          s' = mk_state (<[a := mk_rtree (left nd) (right nd) v]> (heap s))
                        (pll_errno s).
Proof.
  unfold set_parent, store. destruct u. rewrite bind_Done. split.
  - intros (nd & s0 & (a & -> & ? & ->)%load_Done & [= <-]). eauto.
  - intros (a & nd & -> & ? & ->). exists nd, s. by rewrite load_Done; eauto.
Qed.

(** Running the primitives forward. *)
Lemma slot_other_owner sl : slot_owner (slot_other sl) = slot_owner sl.
Proof. by destruct sl. Qed.

Lemma load_slot_run s sl pd :
  heap s !! slot_owner sl = Some pd →
  load_slot (Some sl) s = Done (slot_field sl pd) s.
Proof. intros H. apply load_slot_Done. by exists sl, pd. Qed.

Lemma store_slot_run s sl v pd :
  heap s !! slot_owner sl = Some pd →
  store_slot (Some sl) v s
    = Done tt (mk_state (<[slot_owner sl := slot_update sl v pd]> (heap s))
                        (pll_errno s)).
Proof. intros H. apply store_slot_Done. by exists sl, pd. Qed.

Lemma set_parent_run s a nd v :
  heap s !! a = Some nd →
  set_parent (Some a) v s
    = Done tt (mk_state (<[a := mk_rtree (left nd) (right nd) v]> (heap s))
                        (pll_errno s)).
Proof. intros H. apply set_parent_Done. by exists a, nd. Qed.

Lemma get_parent_run s a nd :
  heap s !! a = Some nd → get_parent (Some a) s = Done (parent nd) s.
Proof. intros H. apply get_parent_Done. by exists a, nd. Qed.

(** What [pllmod_rtree_get_sister] returns, case by case. *)
Lemma get_sister_inv node s r s' :
  pllmod_rtree_get_sister node s = Done r s' →
  ∃ n nd, node = Some n ∧ heap s !! n = Some nd ∧
    ((parent nd = None ∧ r = (PLL_SUCCESS, None, None) ∧ s' = s) ∨
     ∃ p pd, parent nd = Some p ∧ heap s !! p = Some pd ∧
       ((left pd = Some n ∧
         r = (PLL_SUCCESS, Some (LeftOf p), Some (RightOf p)) ∧ s' = s) ∨
        (left pd ≠ Some n ∧ right pd = Some n ∧
         r = (PLL_SUCCESS, Some (RightOf p), Some (LeftOf p)) ∧ s' = s) ∨
        (left pd ≠ Some n ∧ right pd ≠ Some n ∧
         r = (PLL_FAILURE, None, None) ∧
         s' = mk_state (heap s) (Some PLLMOD_TREE_ERROR_INVALID_TREE)))).
Proof.
  unfold pllmod_rtree_get_sister.
  intros (par & s1 & (n & nd & -> & Hn & -> & ->)%get_parent_Done & H)%bind_Done.
  exists n, nd. do 2 (split; [done|]).
  destruct (parent nd) as [p|] eqn:Hp.
  - right.
    apply bind_Done in H as (l & s1 & (? & pd & [= <-] & Hpd & -> & ->)%get_left_Done & H).
    exists p, pd. do 2 (split; [done|]).
    unfold ptr_eqb in H. case_bool_decide.
    + left. by apply mret_Done in H as [<- <-].
    + apply bind_Done in H as (r' & s1 & (? & pd' & [= <-] & Hpd' & -> & ->)%get_right_Done & H).
      assert (pd' = pd) as -> by congruence.
      case_bool_decide.
      * right; left. by apply mret_Done in H as [<- <-].
      * right; right.
        apply bind_Done in H as ([] & s1 & ->%set_error_Done & [<- <-]%mret_Done).
        done.
  - left. by apply mret_Done in H as [<- <-].
Qed.

(** The outcome of the accessor on a node that has a parent. *)
Lemma get_sister_child_cases s n nd p r s' :
  heap s !! n = Some nd → parent nd = Some p →
  pllmod_rtree_get_sister (Some n) s = Done r s' →
  ∃ pd, heap s !! p = Some pd ∧
    ((r = (PLL_FAILURE, None, None) ∧
      s' = mk_state (heap s) (Some PLLMOD_TREE_ERROR_INVALID_TREE)) ∨
     ∃ self, r = (PLL_SUCCESS, Some self, Some (slot_other self)) ∧
             slot_owner self = p ∧ slot_field self pd = Some n ∧ s' = s).
Proof.
  intros Hn Hp (? & nd' & [= <-] & Hn' & Hcase)%get_sister_inv.
  assert (nd' = nd) as -> by congruence.
  destruct Hcase as [(? & _)|(p' & pd & Hp' & Hpd & Hcase)]; [congruence|].
  assert (p' = p) as -> by congruence.
  exists pd. split; [done|].
  destruct Hcase as [(? & -> & ->)|[(? & ? & -> & ->)|(? & ? & -> & ->)]].
  - right. by exists (LeftOf p).
  - right. by exists (RightOf p).
  - by left.
Qed.

(** The accessor on a node held by a child cell of its parent. *)
Lemma get_sister_run s n nd p pd :
  heap s !! n = Some nd → parent nd = Some p → heap s !! p = Some pd →
  left pd = Some n ∨ right pd = Some n →
  ∃ self,
    pllmod_rtree_get_sister (Some n) s
      = Done (PLL_SUCCESS, Some self, Some (slot_other self)) s ∧
    slot_owner self = p ∧ slot_field self pd = Some n.
Proof.
  intros Hn Hp Hpd Hchild. unfold pllmod_rtree_get_sister.
  rewrite (bind_run _ _ s (Some p) s) by (apply get_parent_Done; eauto 10).
  rewrite (bind_run _ _ s (left pd) s) by (apply get_left_Done; eauto 10).
  unfold ptr_eqb. case_bool_decide as Hl.
  - by exists (LeftOf p).
  - destruct Hchild as [?|Hr]; [done|].
    rewrite (bind_run _ _ s (right pd) s) by (apply get_right_Done; eauto 10).
    rewrite bool_decide_true by done. by exists (RightOf p).
Qed.

(** ** The node linkage accessor *)

(** C7. For a node [n] of the heap: when [n] has no parent,
    [pllmod_rtree_get_sister] succeeds and reports both cells absent;
    when [n] has a parent [p] one of whose child cells holds [n] (the tree
    is consistent at [n]), it succeeds without touching the state, the
    self cell is a child cell of [p] whose content is [n], and the sister
    cell is the other child cell of [p], whose content is the other child
    of [p]. *)
Theorem get_sister_spec (s : state) (n : addr) (nd : pll_rtree_t) :
  heap s !! n = Some nd →
  (parent nd = None →
   pllmod_rtree_get_sister (Some n) s = Done (PLL_SUCCESS, None, None) s) ∧
  (∀ p pd, parent nd = Some p → heap s !! p = Some pd →
     left pd = Some n ∨ right pd = Some n →
     ∃ self sister x,
       pllmod_rtree_get_sister (Some n) s
         = Done (PLL_SUCCESS, Some self, Some sister) s ∧
       slot_owner self = p ∧ sister = slot_other self ∧
       load_slot (Some self) s = Done (Some n) s ∧
       load_slot (Some sister) s = Done x s ∧
       ((left pd = Some n ∧ right pd = x) ∨ (right pd = Some n ∧ left pd = x))).
Proof.
  intros Hn. split.
  - intros Hp. unfold pllmod_rtree_get_sister.
    rewrite (bind_run _ _ s None s); [done|].
    apply get_parent_Done. eauto 10.
  - intros p pd Hp Hpd Hchild. unfold pllmod_rtree_get_sister.
    rewrite (bind_run _ _ s (Some p) s) by (apply get_parent_Done; eauto 10).
    rewrite (bind_run _ _ s (left pd) s) by (apply get_left_Done; eauto 10).
    unfold ptr_eqb. case_bool_decide as Hl.
    + exists (LeftOf p), (RightOf p), (right pd). simpl.
      repeat split; [| |by left].
      * apply get_left_Done. eauto 10.
      * apply get_right_Done. eauto 10.
    + destruct Hchild as [?|Hr]; [done|].
      rewrite (bind_run _ _ s (right pd) s) by (apply get_right_Done; eauto 10).
      rewrite bool_decide_true by done.
      exists (RightOf p), (LeftOf p), (left pd). simpl.
      repeat split; [| |by right].
      * apply get_right_Done. eauto 10.
      * apply get_left_Done. eauto 10.
Qed.

Lemma get_sister_spec_witness :
  heap tree !! D = Some (mk_rtree None None (Some B)) ∧
  heap tree !! B = Some (mk_rtree (Some C) (Some D) (Some R)) ∧
  heap tree !! R = Some (mk_rtree (Some A) (Some B) None) ∧
  pllmod_rtree_get_sister (Some R) tree = Done (PLL_SUCCESS, None, None) tree ∧
  ∃ self sister x,
    pllmod_rtree_get_sister (Some D) tree
      = Done (PLL_SUCCESS, Some self, Some sister) tree ∧
    slot_owner self = B ∧ sister = slot_other self ∧
    load_slot (Some self) tree = Done (Some D) tree ∧
    load_slot (Some sister) tree = Done x tree ∧
    ((Some C = Some D ∧ Some D = x) ∨ (Some D = Some D ∧ Some C = x)).
Proof.
  split; [reflexivity|]. split; [reflexivity|]. split; [reflexivity|]. split.
  - apply (get_sister_spec tree R (mk_rtree (Some A) (Some B) None));
      reflexivity.
  - apply (proj2 (get_sister_spec tree D (mk_rtree None None (Some B)) eq_refl)
             B (mk_rtree (Some C) (Some D) (Some R)));
      [reflexivity | reflexivity | right; reflexivity].
Defined.

(** ** The prune operator *)

(** Every way [pllmod_rtree_prune] can return. *)
Lemma prune_inv node s r s' :
  pllmod_rtree_prune node s = Done r s' →
  ∃ n nd, node = Some n ∧ heap s !! n = Some nd ∧
    ((parent nd = None ∧ r = None ∧
      s' = mk_state (heap s) (Some PLLMOD_TREE_ERROR_SPR_INVALID_NODE)) ∨
     ∃ p pd, parent nd = Some p ∧ heap s !! p = Some pd ∧
       ((pllmod_rtree_get_sister (Some n) s = Done (PLL_FAILURE, None, None) s' ∧
         r = None) ∨
        ∃ self,
          pllmod_rtree_get_sister (Some n) s
            = Done (PLL_SUCCESS, Some self, Some (slot_other self)) s ∧
          slot_owner self = p ∧
          ((parent pd = None ∧ r = slot_field (slot_other self) pd ∧
            s' = mk_state (<[p := slot_update (slot_other self) None pd]> (heap s))
                          (pll_errno s)) ∨
           ∃ g, parent pd = Some g ∧
             ((pllmod_rtree_get_sister (Some p) s
                 = Done (PLL_FAILURE, None, None) s' ∧ r = None) ∨
              (r = Some g ∧
               ∃ s4 nd4 q qd,
                 heap s4 !! n = Some nd4 ∧ parent nd4 = Some q ∧
                 heap s4 !! q = Some qd ∧
                 s' = mk_state (<[q := mk_rtree (left qd) (right qd) None]> (heap s4))
                               (pll_errno s4)))))).
Proof.
  unfold pllmod_rtree_prune.
  intros ([] & s0 & [Hnode ->]%assert_Done & H)%bind_Done.
  apply bool_decide_eq_true in Hnode as [n ->].
  apply bind_Done in H as (par & s0 & (? & nd & [= <-] & Hn & -> & ->)%get_parent_Done & H).
  exists n, nd. do 2 (split; [done|]).
  destruct (parent nd) as [p|] eqn:Hp; last first.
  { left. apply bind_Done in H as ([] & s0 & ->%set_error_Done & [<- <-]%mret_Done). done. }
  right.
  apply bind_Done in H as ([[st self_ptr] sister_ptr] & s1 & Hsis & H).
  pose proof Hsis as Hsis'.
  apply (get_sister_child_cases _ _ _ _ _ _ Hn Hp) in Hsis'
    as (pd & Hpd & [[[= -> -> ->] ->]|(self & [= -> -> ->] & Howner & Hself & ->)]).
  { exists p, pd. do 2 (split; [done|]). left. by apply mret_Done in H as [<- <-]. }
  exists p, pd. do 2 (split; [done|]). right. exists self.
  do 2 (split; [done|]).
  cbn beta iota in H.
  assert (get_parent (Some n) s = Done (Some p) s) as Hgn
    by (apply get_parent_Done; eauto 10).
  assert (get_parent (Some p) s = Done (parent pd) s) as Hgp
    by (apply get_parent_Done; eauto 10).
  rewrite !bool_decide_true in H by eauto. cbn [andb] in H.
  apply bind_Done in H as ([] & s0 & [_ ->]%assert_Done & H).
  rewrite (bind_run _ _ _ _ _ Hgn), (bind_run _ _ _ _ _ Hgp) in H.
  destruct (parent pd) as [g|] eqn:Hg; last first.
  { left. split; [done|].
    apply bind_Done in H as (c & s0 & (sl & pd' & [= <-] & Hpd' & -> & ->)%load_slot_Done & H).
    apply bind_Done in H as ([] & s0 & (sl & pd'' & [= <-] & Hpd'' & ->)%store_slot_Done & [<- <-]%mret_Done).
    rewrite <- Howner in Hpd. 
    assert (slot_owner (slot_other self) = slot_owner self) as Hoo by (by destruct self).
    rewrite Hoo in *. simplify_eq. done. }
  right. exists g. split; [done|].
  rewrite (bind_run _ _ _ _ _ Hgn), (bind_run _ _ _ _ _ Hgp), (bind_run _ _ _ _ _ Hgn) in H.
  apply bind_Done in H as ([[st parent_ptr] x] & s1 & Hsis2 & H).
  destruct st; last first.
  { left. apply mret_Done in H as [<- <-].
    pose proof Hsis2 as Hsis2'.
    apply (get_sister_child_cases _ _ _ _ _ _ Hpd Hg) in Hsis2'
      as (gd & Hgd & [[[= -> ->] ->]|(? & [=] & _)]). done. }
  right.
  do 8 (apply bind_Done in H as (? & ? & _ & H)).
  apply bind_Done in H as (np & s4 & (? & nd4 & [= <-] & Hn4 & -> & ->)%get_parent_Done & H).
  apply bind_Done in H as ([] & s5 & (q & qd & Hq & Hqd & ->)%set_parent_Done & [<- <-]%mret_Done).
  split; [done|]. eauto 10.
Qed.




Lemma slot_update_parent sl v nd : parent (slot_update sl v nd) = parent nd.
Proof. by destruct sl. Qed.

(** After a prune that returned a node, the parent of the pruned node (when
    the pruned node still has one) is parentless. *)
Lemma prune_detached node s c s' :
  pllmod_rtree_prune node s = Done (Some c) s' →
  ∃ n, node = Some n ∧
    (get_parent (Some n) s' = Done None s' ∨
     ∃ q, get_parent (Some n) s' = Done (Some q) s' ∧
          get_parent (Some q) s' = Done None s').
Proof.
  intros (n & nd & -> & Hn & Hcase)%prune_inv. exists n. split; [done|].
  destruct Hcase as [(_ & [=] & _)|(p & pd & Hp & Hpd & Hcase)].
  destruct Hcase as [[_ [=]]|(self & Hsis & Howner & Hcase)].
  destruct Hcase as [(Hg & _ & ->)|(g & Hg & Hcase)].
  - right. exists p.
    assert (n ≠ p) by (intros ->; congruence).
    split; apply get_parent_Done; simpl.
    + exists n, nd. by rewrite lookup_insert_ne.
    + eexists p, _. rewrite lookup_insert_eq.
      by rewrite slot_update_parent.
  - destruct Hcase as [[_ [=]]|(_ & s4 & nd4 & q & qd & Hn4 & Hq & Hqd & ->)].
    destruct (decide (n = q)) as [->|Hne].
    + left. apply get_parent_Done. eexists q, _. simpl.
      by rewrite lookup_insert_eq.
    + right. exists q. split; apply get_parent_Done; simpl.
      * exists n, nd4. by rewrite lookup_insert_ne.
      * eexists q, _. by rewrite lookup_insert_eq.
Qed.

(** C3. Pruning a node [n] whose parent [p] is the root (the cell [self]
    of [p] holds [n], the other cell holds the sister [x], and [x] names
    [p] as its parent) returns [x]; [p] is left parentless with [n] in
    [self] and the other cell empty; but [x] is unchanged: it still names
    [p], the root-ward node of the pruned fragment, as its parent, and no
    cell of [p] holds it any more. *)
Theorem prune_under_root_keeps_parent_link (s : state) (n p x : addr)
    (nd pd xd : pll_rtree_t) (self : slot) :
  heap s !! n = Some nd → parent nd = Some p →
  heap s !! p = Some pd → parent pd = None →
  slot_owner self = p → slot_field self pd = Some n →
  slot_field (slot_other self) pd = Some x →
  heap s !! x = Some xd → parent xd = Some p →
  x ≠ n → x ≠ p →
  ∃ s',
    pllmod_rtree_prune (Some n) s = Done (Some x) s' ∧
    heap s' !! n = Some nd ∧
    heap s' !! p = Some (slot_update (slot_other self) None pd) ∧
    heap s' !! x = Some xd ∧
    I1_at (heap s') x = false.
Proof.
  intros Hn Hp Hpd Hpp Howner Hself Hother Hx Hxp Hxn Hxp'.
  assert (n ≠ p) as Hnp by (intros ->; congruence).
  destruct (get_sister_run s n nd p pd Hn Hp Hpd) as (self' & Hsis & Howner' & Hself').
  { destruct self; simpl in *; eauto. }
  assert (self' = self) as ->.
  { destruct self, self'; simpl in *; congruence. }
  pose proof (get_parent_run s n nd Hn) as Hgn. rewrite Hp in Hgn.
  pose proof (get_parent_run s p pd Hpd) as Hgp. rewrite Hpp in Hgp.
  assert (heap s !! slot_owner (slot_other self) = Some pd) as Hpd'
    by (by rewrite slot_other_owner, Howner).
  eexists. split.
  - unfold pllmod_rtree_prune.
    rewrite (bind_run _ _ s tt s) by done.
    rewrite (bind_run _ _ _ _ _ Hgn), (bind_run _ _ _ _ _ Hsis).
    rewrite (bind_run _ _ s tt s) by done.
    rewrite (bind_run _ _ _ _ _ Hgn), (bind_run _ _ _ _ _ Hgp).
    rewrite (bind_run _ _ _ _ _ (load_slot_run s _ pd Hpd')).
    rewrite (bind_run _ _ _ _ _ (store_slot_run s _ None pd Hpd')).
    rewrite Hother. reflexivity.
  - simpl. rewrite slot_other_owner, Howner.
    rewrite !lookup_insert_ne by done. rewrite lookup_insert_eq.
    do 2 (split; [done|]). split; [by rewrite lookup_insert_ne|].
    unfold I1_at. rewrite lookup_insert_ne by done. rewrite Hx, Hxp.
    rewrite lookup_insert_eq. unfold ptr_eqb.
    destruct self; simpl in *; rewrite ?Hself, ?Hother;
      rewrite bool_decide_false by congruence; done.
Qed.

Lemma prune_under_root_keeps_parent_link_witness :
  heap tree !! A = Some (mk_rtree None None (Some R)) ∧
  heap tree !! R = Some (mk_rtree (Some A) (Some B) None) ∧
  heap tree !! B = Some (mk_rtree (Some C) (Some D) (Some R)) ∧
  ∃ s',
    pllmod_rtree_prune (Some A) tree = Done (Some B) s' ∧
    heap s' !! A = Some (mk_rtree None None (Some R)) ∧
    heap s' !! R = Some (mk_rtree (Some A) None None) ∧
    heap s' !! B = Some (mk_rtree (Some C) (Some D) (Some R)) ∧
    I1_at (heap s') B = false.
Proof.
  do 3 (split; [reflexivity|]).
  apply (prune_under_root_keeps_parent_link tree A R B
           (mk_rtree None None (Some R)) (mk_rtree (Some A) (Some B) None)
           (mk_rtree (Some C) (Some D) (Some R)) (LeftOf R));
    try reflexivity; discriminate.
Defined.

(** Pruning below a grandparent, in a heap where the nodes involved are
    distinct and linked consistently. *)
Lemma prune_with_grandparent (s : state) (n p g x : addr)
    (nd pd gd xd : pll_rtree_t) (self gself : slot) :
  heap s !! n = Some nd → parent nd = Some p →
  heap s !! p = Some pd → parent pd = Some g →
  heap s !! g = Some gd → heap s !! x = Some xd →
  slot_owner self = p → slot_field self pd = Some n →
  slot_field (slot_other self) pd = Some x →
  slot_owner gself = g → slot_field gself gd = Some p →
  slot_field (slot_other gself) gd ≠ Some p →
  n ≠ p → n ≠ g → n ≠ x → x ≠ p → x ≠ g → p ≠ g →
  ∃ s',
    pllmod_rtree_prune (Some n) s = Done (Some g) s' ∧
    heap s' !! n = Some nd ∧
    heap s' !! p = Some (mk_rtree (left (slot_update (slot_other self) None pd))
                                  (right (slot_update (slot_other self) None pd))
                                  None) ∧
    heap s' !! g = Some (slot_update gself (Some x) gd) ∧
    heap s' !! x = Some (mk_rtree (left xd) (right xd) (Some g)) ∧
    (∀ a, a ≠ p → a ≠ g → a ≠ x → heap s' !! a = heap s !! a).
Proof.
  intros Hn Hp Hpd Hpp Hgd Hx Howner Hself Hother Hgowner Hgself Hgother
    Hnp Hng Hnx Hxp Hxg Hpg.
  destruct (get_sister_run s n nd p pd Hn Hp Hpd) as (self' & Hsis & Howner' & Hself').
  { destruct self; simpl in *; eauto. }
  assert (self' = self) as ->.
  { destruct self, self'; simpl in *; congruence. }
  destruct (get_sister_run s p pd g gd Hpd Hpp Hgd) as (gself' & Hsis2 & Hgowner' & Hgself').
  { destruct gself; simpl in *; eauto. }
  assert (gself' = gself) as ->.
  { destruct gself, gself'; simpl in *; congruence. }
  pose proof (get_parent_run s n nd Hn) as Hgn. rewrite Hp in Hgn.
  pose proof (get_parent_run s p pd Hpd) as Hgp. rewrite Hpp in Hgp.
  assert (heap s !! slot_owner (slot_other self) = Some pd) as Hpd'
    by (by rewrite slot_other_owner, Howner).
  assert (heap s !! slot_owner gself = Some gd) as Hgd'
    by (by rewrite Hgowner).
  set (s1 := mk_state (<[g := slot_update gself (Some x) gd]> (heap s))
                      (pll_errno s)).
  set (s2 := mk_state (<[x := mk_rtree (left xd) (right xd) (Some g)]> (heap s1))
                      (pll_errno s1)).
  set (s3 := mk_state (<[p := slot_update (slot_other self) None pd]> (heap s2))
                      (pll_errno s2)).
  set (pd3 := slot_update (slot_other self) None pd).
  set (s4 := mk_state (<[p := mk_rtree (left pd3) (right pd3) None]> (heap s3))
                      (pll_errno s3)).
  exists s4. split.
  - unfold pllmod_rtree_prune.
    rewrite (bind_run _ _ s tt s) by done.
    rewrite (bind_run _ _ _ _ _ Hgn), (bind_run _ _ _ _ _ Hsis).
    rewrite (bind_run _ _ s tt s) by done.
    rewrite (bind_run _ _ _ _ _ Hgn), (bind_run _ _ _ _ _ Hgp).
    rewrite (bind_run _ _ _ _ _ Hgn), (bind_run _ _ _ _ _ Hgp).
    rewrite (bind_run _ _ _ _ _ Hgn), (bind_run _ _ _ _ _ Hsis2).
    rewrite (bind_run _ _ s tt s) by done.
    rewrite (bind_run _ _ _ _ _ (load_slot_run s _ pd Hpd')), Hother.
    rewrite (bind_run _ _ s tt s1)
      by (by rewrite (store_slot_run s gself (Some x) gd Hgd'), Hgowner).
    assert (heap s1 !! slot_owner (slot_other self) = Some pd) as Hpd1
      by (by rewrite slot_other_owner, Howner; simpl; rewrite lookup_insert_ne).
    rewrite (bind_run _ _ _ _ _ (load_slot_run s1 _ pd Hpd1)), Hother.
    rewrite (bind_run _ _ s1 (Some p) s1).
    2:{ apply get_parent_Done. exists n, nd. simpl. by rewrite lookup_insert_ne. }
    rewrite (bind_run _ _ s1 (Some g) s1).
    2:{ apply get_parent_Done. exists p, pd. simpl. by rewrite lookup_insert_ne. }
    rewrite (bind_run _ _ s1 tt s2).
    2:{ apply set_parent_run. simpl. by rewrite lookup_insert_ne. }
    rewrite (bind_run _ _ s2 tt s3).
    2:{ rewrite (store_slot_run s2 (slot_other self) None pd).
        - by rewrite slot_other_owner, Howner.
        - rewrite slot_other_owner, Howner. simpl.
          by rewrite !lookup_insert_ne. }
    rewrite (bind_run _ _ s3 (Some p) s3).
    2:{ apply get_parent_Done. exists n, nd. simpl. by rewrite !lookup_insert_ne. }
    rewrite (bind_run _ _ s3 tt s4).
    2:{ apply set_parent_run. simpl. by rewrite lookup_insert_eq. }
    done.
  - simpl. repeat split.
    + by rewrite !lookup_insert_ne.
    + by rewrite lookup_insert_eq.
    + rewrite !lookup_insert_ne by done. by rewrite lookup_insert_eq.
    + rewrite !lookup_insert_ne by done. by rewrite lookup_insert_eq.
    + intros a ? ? ?. by rewrite !lookup_insert_ne.
Qed.

(** ** The regraft operator *)

(** A node whose parent is missing is rejected by
    [pllmod_rtree_regraft]. *)
Lemma regraft_parentless q tree s :
  get_parent (Some q) s = Done None s →
  pllmod_rtree_regraft (Some q) tree s
    = Done PLL_FAILURE
        (mk_state (heap s) (Some PLLMOD_TREE_ERROR_SPR_INVALID_NODE)).
Proof.
  intros Hq. unfold pllmod_rtree_regraft.
  rewrite (bind_run _ _ _ _ _ Hq).
  by rewrite (bind_run _ _ s true s).
Qed.

(** A failed regraft has written to no node. *)
Lemma regraft_failure_heap node tree s s' :
  pllmod_rtree_regraft node tree s = Done PLL_FAILURE s' → heap s' = heap s.
Proof.
  unfold pllmod_rtree_regraft.
  intros (np & s0 & (? & ? & _ & _ & _ & ->)%get_parent_Done & H)%bind_Done.
  apply bind_Done in H as (bad & s0 & Hbad & H).
  assert (s0 = s) as ->.
  { destruct np; [|by apply mret_Done in Hbad as [_ ->]].
    by apply bind_Done in Hbad
      as (? & ? & (? & ? & _ & _ & _ & ->)%get_parent_Done & [_ ->]%mret_Done). }
  destruct bad.
  { by apply bind_Done in H as ([] & ? & ->%set_error_Done & [_ <-]%mret_Done). }
  apply bind_Done in H as (pn & ? & (? & ? & _ & _ & _ & ->)%get_parent_Done & H).
  apply bind_Done in H as (tp & ? & (? & ? & _ & _ & _ & ->)%get_parent_Done & H).
  apply bind_Done in H as ([st efp] & s1 & Hfirst & H).
  assert (heap s1 = heap s ∧ (st = PLL_SUCCESS → s1 = s)) as [Hs1 Hok].
  { destruct tp; [|by apply mret_Done in Hfirst as [[= <- <-] ->]].
    apply bind_Done in Hfirst as ([[st' ?] ?] & s2 & Hsis & [[= <- <-] ->]%mret_Done).
    apply get_sister_inv in Hsis as (? & ? & _ & _ & Hcase).
    destruct Hcase as [(_ & [= -> _ _] & ->)|(? & ? & _ & _ & Hcase)]; [done|].
    by destruct Hcase as [(_ & [= -> _ _] & ->)|[(_ & _ & [= -> _ _] & ->)|(_ & _ & [= -> _ _] & ->)]]. }
  destruct st.
  2:{ by apply bind_Done in H as ([] & ? & [_ ->]%assert_errno_Done & [_ <-]%mret_Done). }
  rewrite Hok in H by done.
  apply bind_Done in H as ([[st ?] etc] & s2 & Hsis & H).
  destruct st.
  { do 6 (apply bind_Done in H as (? & ? & _ & H)).
    by apply mret_Done in H as [[=] _]. }
  apply bind_Done in H as ([] & ? & [_ ->]%assert_errno_Done & [_ <-]%mret_Done).
  apply get_sister_inv in Hsis as (? & ? & _ & _ & Hcase).
  destruct Hcase as [(_ & [=] & _)|(? & ? & _ & _ & Hcase)].
  by destruct Hcase as [(_ & [=] & _)|[(_ & _ & [=] & _)|(_ & _ & _ & ->)]].
Qed.

(** What a successful regraft onto a target that has a parent writes. *)
Lemma regraft_run s n nd p pd t td g gd :
  heap s !! n = Some nd → parent nd = Some p →
  heap s !! p = Some pd → parent pd = None →
  heap s !! t = Some td → parent td = Some g →
  heap s !! g = Some gd → left gd = Some t ∨ right gd = Some t →
  p ≠ g → p ≠ t → t ≠ g →
  ∃ self, slot_owner self = g ∧ slot_field self gd = Some t ∧
    pllmod_rtree_regraft (Some n) (Some t) s
    = Done PLL_SUCCESS
        (mk_state
           (<[g := slot_update (slot_other self) (Some t)
                     (slot_update self (Some p) gd)]>
              (<[g := slot_update self (Some p) gd]>
                 (<[t := mk_rtree (left td) (right td) (Some p)]>
                    (<[p := mk_rtree (left pd) (right pd) (Some g)]> (heap s)))))
           (pll_errno s)).
Proof.
  intros Hn Hp Hpd Hpp Ht Htp Hgd Hchild Hpg Hpt Htg.
  destruct (get_sister_run s t td g gd Ht Htp Hgd Hchild)
    as (self & Hsis & Howner & Hself).
  exists self. do 2 (split; [done|]).
  pose proof (get_parent_run s n nd Hn) as Hgn. rewrite Hp in Hgn.
  pose proof (get_parent_run s p pd Hpd) as Hgp. rewrite Hpp in Hgp.
  pose proof (get_parent_run s t td Ht) as Hgt. rewrite Htp in Hgt.
  unfold pllmod_rtree_regraft.
  rewrite (bind_run _ _ _ _ _ Hgn).
  rewrite (bind_run _ _ s false s) by (by rewrite (bind_run _ _ _ _ _ Hgp)).
  rewrite (bind_run _ _ _ _ _ Hgn), (bind_run _ _ _ _ _ Hgt).
  rewrite (bind_run _ _ s (PLL_SUCCESS, Some self) s)
    by (by rewrite (bind_run _ _ _ _ _ Hsis)).
  rewrite (bind_run _ _ _ _ _ Hsis), (bind_run _ _ _ _ _ Hgt).
  rewrite (bind_run _ _ _ _ _ (set_parent_run s p pd (Some g) Hpd)).
  set (s1 := mk_state _ _).
  assert (heap s1 !! t = Some td) as Ht1
    by (by simpl; rewrite lookup_insert_ne).
  rewrite (bind_run _ _ _ _ _ (set_parent_run s1 t td (Some p) Ht1)).
  set (s2 := mk_state _ _).
  rewrite (bind_run _ _ s2 (Some p) s2).
  2:{ apply get_parent_Done. eexists t, _. simpl. by rewrite lookup_insert_eq. }
  assert (heap s2 !! slot_owner self = Some gd) as Hg2.
  { rewrite Howner. simpl. by rewrite !lookup_insert_ne. }
  rewrite (bind_run _ _ _ _ _ (store_slot_run s2 self (Some p) gd Hg2)).
  set (s3 := mk_state _ _).
  assert (heap s3 !! slot_owner (slot_other self)
          = Some (slot_update self (Some p) gd)) as Hg3.
  { rewrite slot_other_owner. simpl. by rewrite lookup_insert_eq. }
  rewrite (bind_run _ _ _ _ _ (store_slot_run s3 (slot_other self) (Some t) _ Hg3)).
  rewrite slot_other_owner. subst s1 s2 s3. simpl. by rewrite Howner.
Qed.

(** C2. Regrafting a node [n], whose parent [p] is a detached parentless
    node, onto a target [t] held by a child cell of its parent [g] (the
    nodes [p], [t] and [g] being distinct) succeeds, and it leaves the two
    child cells of [p] as they were: when [t] was not already in one of
    them it is not a child of [p] afterwards, although it names [p] as its
    parent, and I1 fails at [t]; the two cells of [g] now hold [p] and
    [t], the latter written over the former sister of [t]. *)
Theorem regraft_breaks_I1 (s : state) (n p t g : addr)
    (nd pd td gd : pll_rtree_t) :
  heap s !! n = Some nd → parent nd = Some p →
  heap s !! p = Some pd → parent pd = None →
  heap s !! t = Some td → parent td = Some g →
  heap s !! g = Some gd → left gd = Some t ∨ right gd = Some t →
  p ≠ g → p ≠ t → t ≠ g →
  left pd ≠ Some t → right pd ≠ Some t →
  ∃ s' gd',
    pllmod_rtree_regraft (Some n) (Some t) s = Done PLL_SUCCESS s' ∧
    heap s' !! p = Some (mk_rtree (left pd) (right pd) (Some g)) ∧
    heap s' !! t = Some (mk_rtree (left td) (right td) (Some p)) ∧
    heap s' !! g = Some gd' ∧
    (left gd' = Some p ∧ right gd' = Some t ∨
     left gd' = Some t ∧ right gd' = Some p) ∧
    I1_at (heap s') t = false.
Proof.
  intros Hn Hp Hpd Hpp Ht Htp Hgd Hchild Hpg Hpt Htg Hl Hr.
  destruct (regraft_run s n nd p pd t td g gd) as (self & Howner & Hself & ->);
    try done.
  eexists _, _. split; [done|]. simpl.
  assert (∀ v w, <[g:=v]> (<[g:=w]>
            (<[t:=mk_rtree (left td) (right td) (Some p)]>
               (<[p:=mk_rtree (left pd) (right pd) (Some g)]> (heap s)))) !! p
          = Some (mk_rtree (left pd) (right pd) (Some g))) as Hp'.
  { intros v w. rewrite !lookup_insert_ne by done. by rewrite lookup_insert_eq. }
  assert (∀ v w, <[g:=v]> (<[g:=w]>
            (<[t:=mk_rtree (left td) (right td) (Some p)]>
               (<[p:=mk_rtree (left pd) (right pd) (Some g)]> (heap s)))) !! t
          = Some (mk_rtree (left td) (right td) (Some p))) as Ht'.
  { intros v w. rewrite !lookup_insert_ne by done. by rewrite lookup_insert_eq. }
  split; [done|]. split; [done|].
  split; [by rewrite lookup_insert_eq|]. split.
  - destruct self; simpl in *; subst; [left|right]; done.
  - unfold I1_at. rewrite Ht'. simpl. rewrite Hp'. simpl.
    unfold ptr_eqb. by rewrite !bool_decide_false.
Qed.

Lemma regraft_breaks_I1_witness :
  heap pruned_C !! C = Some (mk_rtree None None (Some B)) ∧
  heap pruned_C !! B = Some (mk_rtree (Some C) None None) ∧
  heap pruned_C !! A = Some (mk_rtree None None (Some R)) ∧
  heap pruned_C !! R = Some (mk_rtree (Some A) (Some D) None) ∧
  ∃ s' gd',
    pllmod_rtree_regraft (Some C) (Some A) pruned_C = Done PLL_SUCCESS s' ∧
    heap s' !! B = Some (mk_rtree (Some C) None (Some R)) ∧
    heap s' !! A = Some (mk_rtree None None (Some B)) ∧
    heap s' !! R = Some gd' ∧
    (left gd' = Some B ∧ right gd' = Some A ∨
     left gd' = Some A ∧ right gd' = Some B) ∧
    I1_at (heap s') A = false.
Proof.
  do 4 (split; [reflexivity|]).
  apply (regraft_breaks_I1 pruned_C C B A R
           (mk_rtree None None (Some B)) (mk_rtree (Some C) None None)
           (mk_rtree None None (Some R)) (mk_rtree (Some A) (Some D) None));
    try reflexivity; try discriminate.
  left; reflexivity.
Defined.

(** C6. Regrafting a node [n] whose parent [p] is a detached, parentless
    node onto a target [t] that has no parent does not return: the test that
    guards the write through the parent-side cell reads the parent of [t]
    after it has been set to [p], so the write is attempted through the
    NULL [edge_from_parent]. *)
Theorem regraft_onto_root_undefined (s : state) (n p t : addr)
    (nd pd td : pll_rtree_t) :
  heap s !! n = Some nd → parent nd = Some p →
  heap s !! p = Some pd → parent pd = None →
  heap s !! t = Some td → parent td = None →
  pllmod_rtree_regraft (Some n) (Some t) s = Undefined.
Proof.
  intros Hn Hp Hpd Hg Ht Htp.
  assert (get_parent (Some n) s = Done (Some p) s) as Hgn
    by (apply get_parent_Done; eauto 10).
  assert (get_parent (Some p) s = Done None s) as Hgp
    by (apply get_parent_Done; eauto 10).
  assert (get_parent (Some t) s = Done None s) as Hgt
    by (apply get_parent_Done; eauto 10).
  assert (pllmod_rtree_get_sister (Some t) s = Done (PLL_SUCCESS, None, None) s)
    as Hsis.
  { unfold pllmod_rtree_get_sister. by rewrite (bind_run _ _ _ _ _ Hgt). }
  unfold pllmod_rtree_regraft.
  rewrite (bind_run _ _ _ _ _ Hgn).
  rewrite (bind_run _ _ s false s) by (by rewrite (bind_run _ _ _ _ _ Hgp)).
  rewrite (bind_run _ _ _ _ _ Hgn), (bind_run _ _ _ _ _ Hgt).
  rewrite (bind_run _ _ s (PLL_SUCCESS, None) s) by done.
  rewrite (bind_run _ _ _ _ _ Hsis), (bind_run _ _ _ _ _ Hgt).
  set (s1 := mk_state (<[p := mk_rtree (left pd) (right pd) None]> (heap s))
                      (pll_errno s)).
  rewrite (bind_run _ _ s tt s1) by (apply set_parent_Done; eauto 10).
  assert (∃ td1, heap s1 !! t = Some td1) as [td1 Ht1].
  { simpl. destruct (decide (p = t)) as [->|?].
    - rewrite lookup_insert_eq. eauto.
    - rewrite lookup_insert_ne by done. eauto. }
  set (s2 := mk_state (<[t := mk_rtree (left td1) (right td1) (Some p)]> (heap s1))
                      (pll_errno s1)).
  rewrite (bind_run _ _ s1 tt s2) by (apply set_parent_Done; eauto 10).
  rewrite (bind_run _ _ s2 (Some p) s2).
  2:{ apply get_parent_Done. eexists t, _. simpl. by rewrite lookup_insert_eq. }
  done.
Qed.

Lemma regraft_onto_root_undefined_witness :
  heap pruned_C !! C = Some (mk_rtree None None (Some B)) ∧
  heap pruned_C !! B = Some (mk_rtree (Some C) None None) ∧
  heap pruned_C !! R = Some (mk_rtree (Some A) (Some D) None) ∧
  pllmod_rtree_regraft (Some C) (Some R) pruned_C = Undefined.
Proof.
  do 3 (split; [reflexivity|]).
  apply (regraft_onto_root_undefined pruned_C C B R
           (mk_rtree None None (Some B)) (mk_rtree (Some C) None None)
           (mk_rtree (Some A) (Some D) None));
    reflexivity.
Defined.

(** C5. Pruning a node [n] that has a parent [p] and a grandparent [g],
    in a heap where the nodes involved are distinct and linked
    consistently, and regrafting [n] back onto its former sister [x], which
    the prune has put in the place of [p] under [g]: both calls succeed, and
    the heap is not the one before the prune.  [p] is back in its cell of
    [g] and holds [n], but its other cell, which held [x], is empty, and
    [x] has been written into the other cell of [g], over the sibling of
    [p]. *)
Theorem prune_regraft_round_trip (s : state) (n p g x : addr)
    (nd pd gd xd : pll_rtree_t) (self gself : slot) :
  heap s !! n = Some nd → parent nd = Some p →
  heap s !! p = Some pd → parent pd = Some g →
  heap s !! g = Some gd → heap s !! x = Some xd →
  slot_owner self = p → slot_field self pd = Some n →
  slot_field (slot_other self) pd = Some x →
  slot_owner gself = g → slot_field gself gd = Some p →
  slot_field (slot_other gself) gd ≠ Some p →
  slot_field (slot_other gself) gd ≠ Some x →
  n ≠ p → n ≠ g → n ≠ x → x ≠ p → x ≠ g → p ≠ g →
  ∃ s1 s2 pd2 gd2,
    pllmod_rtree_prune (Some n) s = Done (Some g) s1 ∧
    pllmod_rtree_regraft (Some n) (Some x) s1 = Done PLL_SUCCESS s2 ∧
    heap s2 !! p = Some pd2 ∧
    slot_field self pd2 = Some n ∧ slot_field (slot_other self) pd2 = None ∧
    heap s2 !! g = Some gd2 ∧
    slot_field gself gd2 = Some p ∧ slot_field (slot_other gself) gd2 = Some x ∧
    heap s2 ≠ heap s.
Proof.
  intros Hn Hp Hpd Hpp Hgd Hx Howner Hself Hother Hgowner Hgself Hgother
    Hgother' Hnp Hng Hnx Hxp Hxg Hpg.
  destruct (prune_with_grandparent s n p g x nd pd gd xd self gself)
    as (s1 & Hprune & Hn1 & Hp1 & Hg1 & Hx1 & _); try done.
  set (pd1 := mk_rtree (left (slot_update (slot_other self) None pd))
                       (right (slot_update (slot_other self) None pd)) None)
    in Hp1.
  set (gd1 := slot_update gself (Some x) gd) in Hg1.
  set (xd1 := mk_rtree (left xd) (right xd) (Some g)) in Hx1.
  destruct (regraft_run s1 n nd p pd1 x xd1 g gd1)
    as (gself' & Hgowner' & Hgself' & Hregraft); try done.
  { subst gd1. destruct gself; simpl; eauto. }
  assert (gself' = gself) as ->.
  { subst gd1. destruct gself, gself'; simpl in *; congruence. }
  set (pd2 := mk_rtree (left pd1) (right pd1) (Some g)) in Hregraft.
  set (gd2 := slot_update (slot_other gself) (Some x)
                (slot_update gself (Some p) gd1)) in Hregraft.
  assert (Hfin : ∀ s2, pllmod_rtree_regraft (Some n) (Some x) s1 = Done PLL_SUCCESS s2 →
            heap s2 !! p = Some pd2 ∧ heap s2 !! g = Some gd2).
  { intros s2. rewrite Hregraft. intros [= <-]. simpl. split.
    - rewrite !lookup_insert_ne by done. by rewrite lookup_insert_eq.
    - by rewrite lookup_insert_eq. }
  eexists s1, _, pd2, gd2. split; [done|]. split; [exact Hregraft|].
  destruct (Hfin _ Hregraft) as [Hp2 Hg2].
  assert (slot_field (slot_other self) pd2 = None) as Hempty
    by (by subst pd2 pd1; destruct self).
  split; [exact Hp2|]. split; [by subst pd2 pd1; destruct self|].
  split; [done|]. split; [exact Hg2|].
  split; [by subst gd2 gd1; destruct gself|].
  split; [by subst gd2 gd1; destruct gself|].
  intros Heq. rewrite Heq, Hpd in Hp2. injection Hp2 as <-. congruence.
Qed.

Lemma prune_regraft_round_trip_witness :
  heap tree !! C = Some (mk_rtree None None (Some B)) ∧
  heap tree !! B = Some (mk_rtree (Some C) (Some D) (Some R)) ∧
  heap tree !! R = Some (mk_rtree (Some A) (Some B) None) ∧
  heap tree !! D = Some (mk_rtree None None (Some B)) ∧
  ∃ s1 s2 pd2 gd2,
    pllmod_rtree_prune (Some C) tree = Done (Some R) s1 ∧
    pllmod_rtree_regraft (Some C) (Some D) s1 = Done PLL_SUCCESS s2 ∧
    heap s2 !! B = Some pd2 ∧
    left pd2 = Some C ∧ right pd2 = None ∧
    heap s2 !! R = Some gd2 ∧
    right gd2 = Some B ∧ left gd2 = Some D ∧
    heap s2 ≠ heap tree.
Proof.
  do 4 (split; [reflexivity|]).
  apply (prune_regraft_round_trip tree C B R D
           (mk_rtree None None (Some B)) (mk_rtree (Some C) (Some D) (Some R))
           (mk_rtree (Some A) (Some B) None) (mk_rtree None None (Some B))
           (LeftOf B) (RightOf R));
    try reflexivity; discriminate.
Defined.

(** ** The SPR composer *)

(** The two ways the opening statements of [pllmod_rtree_spr] return. *)
Lemma spr_save_rollback_inv p_node rb st rb1 s s1 :
  spr_save_rollback p_node rb s = Done (st, rb1) s1 →
  (st = PLL_FAILURE ∧ rb1 = rb ∧
   pllmod_rtree_get_sister p_node s = Done (PLL_FAILURE, None, None) s1) ∨
  (st = PLL_SUCCESS ∧ s1 = s ∧
   ∃ self,
     pllmod_rtree_get_sister p_node s
       = Done (PLL_SUCCESS, Some self, Some (slot_other self)) s ∧
     match rb with
     | None => rb1 = None
     | Some _ =>
         ∃ e, load_slot (Some (slot_other self)) s = Done e s ∧
              rb1 = Some (mk_rollback PLLMOD_TREE_REARRANGE_SPR 1 p_node e)
     end).
Proof.
  unfold spr_save_rollback.
  intros ([[st' self_ptr] sister_ptr] & s0 & Hsis & H)%bind_Done.
  pose proof Hsis as (n & nd & -> & Hn & Hcase)%get_sister_inv.
  destruct Hcase as [(_ & [= -> -> ->] & ->)|(p & pd & Hp & Hpd & Hcase)].
  { by apply bind_Done in H as (? & ? & [[=] _]%assert_Done & _). }
  assert (st' = PLL_FAILURE ∧ self_ptr = None ∧ sister_ptr = None ∨
          st' = PLL_SUCCESS ∧ s0 = s ∧
          ∃ self, self_ptr = Some self ∧ sister_ptr = Some (slot_other self))
    as [(-> & -> & ->)|(-> & -> & self & -> & ->)].
  { destruct Hcase as [(_ & [= -> -> ->] & ->)|[(_ & _ & [= -> -> ->] & ->)|(_ & _ & [= -> -> ->] & _)]];
      [right | right | left]; repeat split; eauto. }
  - left.
    by apply bind_Done in H as ([] & ? & [_ ->]%assert_errno_Done & [[= <- <-] <-]%mret_Done).
  - right.
    apply bind_Done in H as ([] & ? & [_ ->]%assert_Done & H).
    do 2 (split; [by destruct rb;
      [apply bind_Done in H as (? & ? & (? & ? & _ & _ & _ & ->)%load_slot_Done & [[= <- _] <-]%mret_Done)
      |apply mret_Done in H as [[= <- _] <-]]|]).
    exists self. split; [done|].
    destruct rb.
    + apply bind_Done in H as (e & ? & Hload & [[= _ <-] _]%mret_Done).
      pose proof Hload as (? & ? & _ & _ & _ & ->)%load_slot_Done. eauto.
    + by apply mret_Done in H as [[= _ <-] _].
Qed.

(** Every way [pllmod_rtree_spr] can return: the sister lookup failed, the
    prune returned NULL, or the regraft failed; the regraft of spr is
    handed the parent of the pruned node, which the prune has just left
    parentless, so it is always rejected. *)
Lemma spr_inv fuel p_node r_tree root rb st root' rb' s s' :
  pllmod_rtree_spr fuel p_node r_tree root rb s = Done (st, root', rb') s' →
  st = PLL_FAILURE ∧ root' = root ∧
  ∃ rb1 s1, spr_save_rollback p_node rb s = Done (PLL_FAILURE, rb1) s1 ∧
            rb' = rb1 ∧ s' = s1
    ∨ spr_save_rollback p_node rb s = Done (PLL_SUCCESS, rb1) s ∧ rb' = rb1 ∧
      (pllmod_rtree_prune p_node s = Done None s' ∨
       ∃ c s2, pllmod_rtree_prune p_node s = Done (Some c) s2 ∧
               s' = mk_state (heap s2)
                      (Some PLLMOD_TREE_ERROR_SPR_INVALID_NODE)).
Proof.
  unfold pllmod_rtree_spr.
  intros ([st0 rb1] & s1 & Hsave & H)%bind_Done.
  destruct st0.
  2:{ apply mret_Done in H as [[= <- <- <-] <-]. do 2 (split; [done|]).
      exists rb1, s1. by left. }
  pose proof Hsave as [([=] & _)|(_ & -> & _)]%spr_save_rollback_inv.
  apply bind_Done in H as (c & s2 & Hprune & H).
  destruct c as [c|].
  2:{ apply bind_Done in H as ([] & ? & [_ ->]%assert_errno_Done & [[= <- <- <-] <-]%mret_Done).
      do 2 (split; [done|]). exists rb1, s. right. eauto. }
  pose proof Hprune as (n & -> & Hdet)%prune_detached.
  destruct Hdet as [Hnone|(q & Hq & Hqnone)].
  { rewrite (bind_run _ _ _ _ _ Hnone) in H.
    by apply bind_Done in H as (? & ? & (? & ? & ? & _)%bind_Done & _). }
  rewrite (bind_run _ _ _ _ _ Hq) in H.
  rewrite (bind_run _ _ _ _ _ (regraft_parentless q r_tree s2 Hqnone)) in H.
  apply bind_Done in H as ([] & ? & [_ ->]%assert_errno_Done & [[= <- <- <-] <-]%mret_Done).
  do 2 (split; [done|]). exists rb1, s. right. eauto 10.
Qed.

(** [pllmod_rtree_spr] never reports success. *)
Lemma spr_never_succeeds fuel p_node r_tree root rb st root' rb' s s' :
  pllmod_rtree_spr fuel p_node r_tree root rb s = Done (st, root', rb') s' →
  st = PLL_FAILURE.
Proof. by intros (-> & _)%spr_inv. Qed.

(** A prune that returns NULL has written to no node. *)
Lemma prune_null_heap node s s' :
  pllmod_rtree_prune node s = Done None s' → heap s' = heap s.
Proof.
  intros (n & nd & -> & Hn & Hcase)%prune_inv.
  destruct Hcase as [(_ & _ & ->)|(p & pd & Hp & Hpd & Hcase)]; [done|].
  destruct Hcase as [[Hsis _]|(self & Hsis & Howner & Hcase)].
  { by apply (get_sister_child_cases _ _ _ _ _ _ Hn Hp) in Hsis
      as (? & _ & [[_ ->]|(? & [=] & _)]). }
  destruct Hcase as [(Hg & Hnone & ->)|(g & Hg & Hcase)].
  { simpl. apply insert_id. rewrite Hpd. f_equal.
    destruct self, pd; simpl in *; congruence. }
  destruct Hcase as [[Hsis2 _]|[[=] _]].
  by apply (get_sister_child_cases _ _ _ _ _ _ Hpd Hg) in Hsis2
    as (? & _ & [[_ ->]|(? & [=] & _)]).
Qed.

(** C9, amended. When [rollback_info] is provided, the prune node [n] has
    a parent [p] and the initial sister lookup succeeds, the opening
    statements of [pllmod_rtree_spr] leave the state as it was and fill the
    record with the kind SPR, the rooted flag 1, the prune edge [n] and, as
    regraft edge, the content [e] of the child cell of [p] other than the
    one holding [n]; and whatever [pllmod_rtree_spr] then returns, it
    returns that record. *)
Theorem spr_rollback_record (fuel : nat) (n p : addr) (nd : pll_rtree_t)
    (r_tree : ptr) (root : option ptr) (rb0 : pll_tree_rollback_t) (s : state) :
  heap s !! n = Some nd →
  parent nd = Some p →
  (∃ self sister,
     pllmod_rtree_get_sister (Some n) s = Done (PLL_SUCCESS, self, sister) s) →
  ∃ self pd e,
    pllmod_rtree_get_sister (Some n) s
      = Done (PLL_SUCCESS, Some self, Some (slot_other self)) s ∧
    heap s !! p = Some pd ∧ slot_owner self = p ∧
    slot_field self pd = Some n ∧ e = slot_field (slot_other self) pd ∧
    spr_save_rollback (Some n) (Some rb0) s
      = Done (PLL_SUCCESS,
              Some (mk_rollback PLLMOD_TREE_REARRANGE_SPR 1 (Some n) e)) s ∧
    ∀ st root' rb' s',
      pllmod_rtree_spr fuel (Some n) r_tree root (Some rb0) s
        = Done (st, root', rb') s' →
      rb' = Some (mk_rollback PLLMOD_TREE_REARRANGE_SPR 1 (Some n) e).
Proof.
  intros Hn Hp (self0 & sister0 & Hsis).
  pose proof Hsis as Hsis'.
  apply (get_sister_child_cases _ _ _ _ _ _ Hn Hp) in Hsis'
    as (pd & Hpd & [[[=] _]|(self & [= -> ->] & Howner & Hself & _)]).
  exists self, pd, (slot_field (slot_other self) pd).
  do 5 (split; [done|]).
  assert (load_slot (Some (slot_other self)) s
          = Done (slot_field (slot_other self) pd) s) as Hload.
  { apply load_slot_Done. exists (slot_other self), pd.
    repeat split. rewrite <- Hpd, <- Howner. by destruct self. }
  assert (Hsave : spr_save_rollback (Some n) (Some rb0) s
    = Done (PLL_SUCCESS,
            Some (mk_rollback PLLMOD_TREE_REARRANGE_SPR 1 (Some n)
                    (slot_field (slot_other self) pd))) s).
  { unfold spr_save_rollback. rewrite (bind_run _ _ _ _ _ Hsis).
    rewrite (bind_run _ _ s tt s) by done.
    by rewrite (bind_run _ _ _ _ _ Hload). }
  split; [done|].
  intros st root' rb' s' (_ & _ & rb1 & s1 & Hcase)%spr_inv.
  rewrite Hsave in Hcase.
  by destruct Hcase as [([=] & _)|([= <-] & -> & _)].
Qed.

Lemma spr_rollback_record_witness :
  heap tree !! C = Some (mk_rtree None None (Some B)) ∧
  pllmod_rtree_get_sister (Some C) tree
    = Done (PLL_SUCCESS, Some (LeftOf B), Some (RightOf B)) tree ∧
  ∃ self pd e,
    pllmod_rtree_get_sister (Some C) tree
      = Done (PLL_SUCCESS, Some self, Some (slot_other self)) tree ∧
    heap tree !! B = Some pd ∧ slot_owner self = B ∧
    slot_field self pd = Some C ∧ e = slot_field (slot_other self) pd ∧
    spr_save_rollback (Some C)
        (Some (mk_rollback PLLMOD_TREE_REARRANGE_OTHER 0 None None)) tree
      = Done (PLL_SUCCESS,
              Some (mk_rollback PLLMOD_TREE_REARRANGE_SPR 1 (Some C) e)) tree ∧
    ∀ st root' rb' s',
      pllmod_rtree_spr 5 (Some C) (Some A) (Some (Some R))
          (Some (mk_rollback PLLMOD_TREE_REARRANGE_OTHER 0 None None)) tree
        = Done (st, root', rb') s' →
      rb' = Some (mk_rollback PLLMOD_TREE_REARRANGE_SPR 1 (Some C) e).
Proof.
  split; [reflexivity|]. split; [vm_compute; reflexivity|].
  apply (spr_rollback_record 5 C B (mk_rtree None None (Some B))).
  - reflexivity.
  - reflexivity.
  - exists (Some (LeftOf B)), (Some (RightOf B)). vm_compute; reflexivity.
Defined.

(** C9 as stated fails when the prune node is the root: the sister lookup
    succeeds, reporting both cells absent, and the assertion that follows
    it stops the call before the record is written. *)
Lemma spr_rollback_root_counterexample :
  pllmod_rtree_get_sister (Some R) tree = Done (PLL_SUCCESS, None, None) tree ∧
  (¬ ∃ x s', spr_save_rollback (Some R)
               (Some (mk_rollback PLLMOD_TREE_REARRANGE_OTHER 0 None None)) tree
             = Done x s') ∧
  ∀ fuel,
    pllmod_rtree_spr fuel (Some R) (Some A) (Some (Some R))
      (Some (mk_rollback PLLMOD_TREE_REARRANGE_OTHER 0 None None)) tree
    = Aborted.
Proof.
  split; [vm_compute; reflexivity|]. split.
  - intros (x & s' & H). vm_compute in H. discriminate.
  - intros fuel. vm_compute. reflexivity.
Qed.

(** C10. When the sister lookup of [pllmod_rtree_spr] has succeeded and
    the call nevertheless returns failure, a provided rollback record has
    been overwritten with the kind SPR, the rooted flag 1, the prune edge
    and the sister read before the prune, and is returned so: either the
    prune returned NULL and no node was written (the move was not applied),
    or the prune was carried out, the regraft was rejected and the nodes
    are those the prune left (the move was half applied). *)
Theorem spr_failure_keeps_rollback (fuel : nat) (p_node r_tree : ptr)
    (root root' : option ptr) (rb0 : pll_tree_rollback_t)
    (rb' : option pll_tree_rollback_t) (self sister : option slot)
    (s s' : state) :
  pllmod_rtree_get_sister p_node s = Done (PLL_SUCCESS, self, sister) s →
  pllmod_rtree_spr fuel p_node r_tree root (Some rb0) s
    = Done (PLL_FAILURE, root', rb') s' →
  ∃ e, load_slot sister s = Done e s ∧
       rb' = Some (mk_rollback PLLMOD_TREE_REARRANGE_SPR 1 p_node e) ∧
       ((pllmod_rtree_prune p_node s = Done None s' ∧ heap s' = heap s) ∨
        (∃ c s2, pllmod_rtree_prune p_node s = Done (Some c) s2 ∧
                 heap s' = heap s2)).
Proof.
  intros Hsis (_ & _ & rb1 & s1 & Hcase)%spr_inv.
  destruct Hcase as [(Hsave & _)|(Hsave & -> & Hstage)].
  { apply spr_save_rollback_inv in Hsave as [(_ & _ & Hfail)|([=] & _)].
    rewrite Hsis in Hfail. discriminate. }
  apply spr_save_rollback_inv in Hsave as [([=] & _)|(_ & _ & c & Hsis' & e & Hload & ->)].
  rewrite Hsis in Hsis'. injection Hsis' as -> ->.
  exists e. do 2 (split; [done|]).
  destruct Hstage as [Hnull|(c' & s2 & Hprune & ->)].
  - left. split; [done|]. by apply prune_null_heap in Hnull.
  - right. by exists c', s2.
Qed.

Lemma spr_failure_keeps_rollback_witness :
  (pllmod_rtree_spr 5 (Some C) (Some A) (Some (Some R))
     (Some (mk_rollback PLLMOD_TREE_REARRANGE_OTHER 0 None None)) tree
   = Done (PLL_FAILURE, Some (Some R),
           Some (mk_rollback PLLMOD_TREE_REARRANGE_SPR 1 (Some C) (Some D)))
       (mk_state (heap pruned_C) (Some PLLMOD_TREE_ERROR_SPR_INVALID_NODE)) ∧
   ∃ c s2, pllmod_rtree_prune (Some C) tree = Done (Some c) s2 ∧
           heap pruned_C = heap s2) ∧
  (pllmod_rtree_spr 5 (Some C) (Some A) (Some (Some R))
     (Some (mk_rollback PLLMOD_TREE_REARRANGE_OTHER 0 None None))
     ExampleBroken.tree
   = Done (PLL_FAILURE, Some (Some R),
           Some (mk_rollback PLLMOD_TREE_REARRANGE_SPR 1 (Some C) (Some D)))
       (mk_state (heap ExampleBroken.tree)
                 (Some PLLMOD_TREE_ERROR_INVALID_TREE)) ∧
   pllmod_rtree_prune (Some C) ExampleBroken.tree
   = Done None (mk_state (heap ExampleBroken.tree)
                         (Some PLLMOD_TREE_ERROR_INVALID_TREE))).
Proof.
  split.
  - split; [vm_compute; reflexivity|].
    destruct (spr_failure_keeps_rollback 5 (Some C) (Some A) (Some (Some R))
                (Some (Some R))
                (mk_rollback PLLMOD_TREE_REARRANGE_OTHER 0 None None)
                (Some (mk_rollback PLLMOD_TREE_REARRANGE_SPR 1 (Some C) (Some D)))
                (Some (LeftOf B)) (Some (RightOf B)) tree
                (mk_state (heap pruned_C)
                          (Some PLLMOD_TREE_ERROR_SPR_INVALID_NODE)))
      as (e & _ & _ & [[Hnull _]|Hhalf]).
    + vm_compute; reflexivity.
    + vm_compute; reflexivity.
    + vm_compute in Hnull. discriminate.
    + exact Hhalf.
  - split; [vm_compute; reflexivity|].
    destruct (spr_failure_keeps_rollback 5 (Some C) (Some A) (Some (Some R))
                (Some (Some R))
                (mk_rollback PLLMOD_TREE_REARRANGE_OTHER 0 None None)
                (Some (mk_rollback PLLMOD_TREE_REARRANGE_SPR 1 (Some C) (Some D)))
                (Some (LeftOf B)) (Some (RightOf B)) ExampleBroken.tree
                (mk_state (heap ExampleBroken.tree)
                          (Some PLLMOD_TREE_ERROR_INVALID_TREE)))
      as (e & _ & _ & [[Hnull _]|(c & s2 & Hprune & _)]).
    + vm_compute; reflexivity.
    + vm_compute; reflexivity.
    + exact Hnull.
    + vm_compute in Hprune. discriminate.
Defined.

(** ** The five-node tree *)

(** C1. On the tree of five nodes, [pllmod_rtree_spr] with prune node [C],
    regraft target [A] and a root handle, with or without a rollback
    record, returns failure with InvalidNode: [C] has been pruned, nothing
    has been regrafted ([A] is still the left child of the root, and [B] is
    a parentless node with [C] as its only child), and the root handle is
    as it was. *)
Theorem spr_five_node_tree (fuel : nat)
    (rollback_info : option pll_tree_rollback_t) :
  pllmod_rtree_spr fuel (Some C) (Some A) (Some (Some R)) rollback_info tree
    = Done (PLL_FAILURE, Some (Some R),
            match rollback_info with
            | Some _ =>
                Some (mk_rollback PLLMOD_TREE_REARRANGE_SPR 1 (Some C) (Some D))
            | None => None
            end)
        (mk_state (heap pruned_C) (Some PLLMOD_TREE_ERROR_SPR_INVALID_NODE)) ∧
  heap pruned_C !! R = Some (mk_rtree (Some A) (Some D) None) ∧
  heap pruned_C !! A = Some (mk_rtree None None (Some R)) ∧
  heap pruned_C !! B = Some (mk_rtree (Some C) None None).
Proof. destruct rollback_info; repeat split; vm_compute; reflexivity. Qed.

(** The regraft on the five-node tree, evaluated. *)
Lemma regraft_five_node_example :
  pllmod_rtree_prune (Some C) tree = Done (Some R) pruned_C ∧
  pllmod_rtree_regraft (Some C) (Some A) pruned_C
    = Done PLL_SUCCESS regrafted_C_onto_A ∧
  heap regrafted_C_onto_A !! B = Some (mk_rtree (Some C) None (Some R)) ∧
  heap regrafted_C_onto_A !! A = Some (mk_rtree None None (Some B)) ∧
  heap regrafted_C_onto_A !! R = Some (mk_rtree (Some B) (Some A) None) ∧
  heap regrafted_C_onto_A !! D = Some (mk_rtree None None (Some R)) ∧
  I1_at (heap regrafted_C_onto_A) A = false ∧
  I1_at (heap regrafted_C_onto_A) D = false ∧
  I1 regrafted_C_onto_A = false ∧
  I1 tree = true.
Proof. repeat split; vm_compute; reflexivity. Qed.

(** The prune under the root of the five-node tree, evaluated. *)
Lemma prune_five_node_example :
  pllmod_rtree_prune (Some A) tree = Done (Some B) pruned_A ∧
  heap pruned_A !! A = Some (mk_rtree None None (Some R)) ∧
  heap pruned_A !! R = Some (mk_rtree (Some A) None None) ∧
  heap pruned_A !! B = Some (mk_rtree (Some C) (Some D) (Some R)) ∧
  I1_at (heap pruned_A) B = false.
Proof. repeat split; vm_compute; reflexivity. Qed.

(** The round trips on the five-node tree, evaluated: back onto [D] after
    pruning [C], and back onto [B] after pruning [A], which fails with
    InvalidTree. *)
Lemma round_trip_five_node_example :
  (c ← pllmod_rtree_prune (Some C); pllmod_rtree_regraft (Some C) (Some D)) tree
    = Done PLL_SUCCESS regrafted_C_onto_D ∧
  heap regrafted_C_onto_D ≠ heap tree ∧
  heap tree !! R = Some (mk_rtree (Some A) (Some B) None) ∧
  heap regrafted_C_onto_D !! R = Some (mk_rtree (Some D) (Some B) None) ∧
  heap tree !! B = Some (mk_rtree (Some C) (Some D) (Some R)) ∧
  heap regrafted_C_onto_D !! B = Some (mk_rtree (Some C) None (Some R)) ∧
  (c ← pllmod_rtree_prune (Some A); pllmod_rtree_regraft (Some A) (Some B)) tree
    = Done PLL_FAILURE
        (mk_state (heap pruned_A) (Some PLLMOD_TREE_ERROR_INVALID_TREE)).
Proof.
  repeat split; try (vm_compute; reflexivity).
  intros Heq. apply (f_equal (λ h, h !! R)) in Heq.
  vm_compute in Heq. discriminate.
Qed.

(** ** The bounded-distance enumerator *)

Lemma int_pred_Done x s y s' :
  int_pred x s = Done y s' ↔ INT_MIN ≤ x - 1 ∧ y = x - 1 ∧ s' = s.
Proof.
  unfold int_pred. destruct (Z.ltb_spec (x - 1) INT_MIN); split.
  - done.
  - lia.
  - by intros [= <- <-].
  - by intros (_ & -> & ->).
Qed.

Lemma load_finishes p s : load p s ≠ Unfinished.
Proof. unfold load. by repeat case_match. Qed.

Lemma get_left_finishes p s : get_left p s ≠ Unfinished.
Proof.
  unfold get_left. intros [?|(? & ? & _ & [=])]%bind_Unfinished.
  by eapply load_finishes.
Qed.

Lemma get_right_finishes p s : get_right p s ≠ Unfinished.
Proof.
  unfold get_right. intros [?|(? & ? & _ & [=])]%bind_Unfinished.
  by eapply load_finishes.
Qed.

Lemma emit_finishes x ob s : emit x ob s ≠ Unfinished.
Proof. unfold emit. destruct ob. by case_bool_decide. Qed.

Lemma int_pred_finishes x s : int_pred x s ≠ Unfinished.
Proof. unfold int_pred. by case_match. Qed.

(** The descent never runs out of depth. *)
Lemma down_rec_finishes depth root ob min_distance max_distance s :
  max_distance < Z.of_nat depth →
  rtree_nodes_at_node_dist_down_rec depth root ob min_distance max_distance s
    ≠ Unfinished.
Proof.
  revert root ob min_distance max_distance s.
  induction depth as [|depth IH]; intros root ob mn mx s Hmx; simpl.
  - rewrite (proj2 (Z.ltb_lt mx 0)) by lia. done.
  - destruct (Z.ltb_spec mx 0); [done|].
    intros [Hu|(ob1 & s1 & _ & Hu)]%bind_Unfinished.
    { destruct (mn <? 0); [by eapply emit_finishes | done]. }
    apply bind_Unfinished in Hu as [Hu|(l & s2 & _ & Hu)];
      [by eapply get_left_finishes|].
    apply bind_Unfinished in Hu as [Hu|(both & s3 & _ & Hu)].
    { destruct l; [|done].
      apply bind_Unfinished in Hu as [Hu|(? & ? & _ & [=])].
      by eapply get_right_finishes. }
    destruct both; [|done]. simpl in Hu.
    apply bind_Unfinished in Hu as [Hu|(l' & s4 & _ & Hu)];
      [by eapply get_left_finishes|].
    apply bind_Unfinished in Hu as [Hu|(mn1 & s5 & _ & Hu)];
      [by eapply int_pred_finishes|].
    apply bind_Unfinished in Hu as [Hu|(mx1 & s6 & (_ & -> & _)%int_pred_Done & Hu)];
      [by eapply int_pred_finishes|].
    apply bind_Unfinished in Hu as [Hu|(ob2 & s7 & _ & Hu)];
      [eapply IH; [|done]; lia|].
    apply bind_Unfinished in Hu as [Hu|(r' & s8 & _ & Hu)];
      [by eapply get_right_finishes|].
    apply bind_Unfinished in Hu as [Hu|(mn2 & s9 & _ & Hu)];
      [by eapply int_pred_finishes|].
    apply bind_Unfinished in Hu as [Hu|(mx2 & s10 & (_ & -> & _)%int_pred_Done & Hu)];
      [by eapply int_pred_finishes|].
    eapply IH; [|done]. lia.
Qed.

(** X13. The descent ends on every heap, cyclic ones included: as each
    nested call lowers [max_distance] by one and returns at once below
    zero, [max_distance + 1] nested calls are never exceeded. *)
Lemma down_finishes root ob min_distance max_distance s :
  rtree_nodes_at_node_dist_down root ob min_distance max_distance s ≠ Unfinished.
Proof. apply down_rec_finishes. lia. Qed.

(** Below zero the descent returns at once. *)
Lemma down_below_zero root ob min_distance max_distance :
  max_distance < 0 →
  rtree_nodes_at_node_dist_down root ob min_distance max_distance = mret ob.
Proof.
  intros Hmx. unfold rtree_nodes_at_node_dist_down.
  destruct (Z.to_nat (max_distance + 1)); simpl;
    by rewrite (proj2 (Z.ltb_lt max_distance 0)).
Qed.

(** Once both bounds are at most 0 the ascent writes every ancestor. *)
Lemma loop_below_zero l : ∀ fuel c buf i mn mx s,
  path_to_root (heap s) c l →
  (length l ≤ fuel)%nat →
  (i + length l ≤ length buf)%nat →
  mn ≤ 0 → mx ≤ 0 →
  INT_MIN ≤ mn - Z.of_nat (length l) - 1 →
  INT_MIN ≤ mx - Z.of_nat (length l) - 1 →
  Z.of_nat (i + length l) < 4294967296 →
  nodes_at_node_dist_loop fuel (Some c) (buf, Z.of_nat i) mn mx s
    = Done (PLL_SUCCESS,
            (take i buf ++ (Some <$> l) ++ drop (i + length l) buf,
             Z.of_nat (i + length l))) s.
Proof.
  induction l as [|p l IH]; intros fuel c buf i mn mx s Hpath Hfuel Hbuf Hmn Hmx Hlo Hlo' Hhi.
  - inversion Hpath as [n nd Hn Hp|]; subst.
    assert (nodes_at_node_dist_loop fuel (Some c) (buf, Z.of_nat i) mn mx s
            = Done (PLL_SUCCESS, (buf, Z.of_nat i)) s) as ->.
    { destruct fuel; simpl;
        by rewrite (bind_run _ _ s None s) by (apply get_parent_Done; eauto 10). }
    simpl. rewrite Nat.add_0_r, take_drop. done.
  - inversion Hpath as [|n nd p' pd l' Hn Hp Hpd Hchild Hrest]; subst.
    destruct fuel as [|fuel]; [simpl in Hfuel; lia|].
    simpl in Hfuel, Hbuf, Hlo, Hlo', Hhi.
    destruct (get_sister_run s c nd p pd Hn Hp Hpd Hchild)
      as (self & Hsis & Howner & Hself).
    cbn [nodes_at_node_dist_loop].
    rewrite (bind_run _ _ s (Some p) s) by (apply get_parent_Done; eauto 10).
    rewrite (bind_run _ _ _ _ _ Hsis).
    rewrite (bind_run _ _ s (mn - 1) s) by (apply int_pred_Done; unfold INT_MIN in *; repeat split; lia || done).
    rewrite (bind_run _ _ s (mx - 1) s) by (apply int_pred_Done; unfold INT_MIN in *; repeat split; lia || done).
    rewrite (bind_run _ _ s (Some p) s) by (apply get_parent_Done; eauto 10).
    rewrite (proj2 (Z.ltb_lt (mn - 1) 0)) by lia.
    rewrite (bind_run _ _ s (<[i := Some p]> buf, Z.of_nat (S i)) s).
    2:{ unfold emit. rewrite Nat2Z.id, bool_decide_true by lia.
        unfold mret, M_ret. do 2 f_equal. f_equal.
        rewrite Z.mod_small by lia. lia. }
    rewrite (bind_run _ _ s (slot_field (slot_other self) pd) s).
    2:{ apply load_slot_Done. exists (slot_other self), pd.
        repeat split. rewrite <- Hpd, <- Howner. by destruct self. }
    rewrite (bind_run _ _ s (mn - 1 - 1) s) by (apply int_pred_Done; unfold INT_MIN in *; repeat split; lia || done).
    rewrite (bind_run _ _ s (mx - 1 - 1) s) by (apply int_pred_Done; unfold INT_MIN in *; repeat split; lia || done).
    rewrite down_below_zero by lia.
    rewrite (bind_run _ _ s (<[i := Some p]> buf, Z.of_nat (S i)) s) by done.
    rewrite (IH fuel p (<[i := Some p]> buf) (S i) (mn - 1) (mx - 1) s);
      [|done|lia|rewrite length_insert; lia|lia|lia|lia|lia|rewrite Nat2Z.inj_succ in *; simpl; lia].
    cbn [length]. replace (S i + length l)%nat with (i + S (length l))%nat by lia.
    unfold ptr in *.
    rewrite (take_S_r _ _ (Some p)) by (apply list_lookup_insert_eq; lia).
    rewrite take_insert_ge by lia.
    rewrite drop_insert_lt by lia.
    by rewrite <- app_assoc.
Qed.

(** C4. With both bounds 0 the enumerator returns success having written,
    from the start of the buffer, the parent of the reference node and then
    every further ancestor up to the root, and counts them: the reference
    node itself is not written, and the ancestors are, whatever their
    distance. *)
Theorem nodes_at_node_dist_0_0 (fuel : nat) (s : state) (n : addr)
    (l : list addr) (buf : list ptr) (k : Z) :
  path_to_root (heap s) n l →
  (length l ≤ fuel)%nat →
  (length l ≤ length buf)%nat →
  Z.of_nat (length l) < 2147483647 →
  pllmod_rtree_nodes_at_node_dist fuel (Some n) (buf, k) 0 0 s
    = Done (PLL_SUCCESS,
            ((Some <$> l) ++ drop (length l) buf, Z.of_nat (length l))) s.
Proof.
  intros Hpath Hfuel Hbuf Hlen. unfold pllmod_rtree_nodes_at_node_dist.
  simpl. change 0 with (Z.of_nat 0) at 1.
  rewrite (loop_below_zero l fuel n buf 0 0 0 s); unfold INT_MIN; try done; lia.
Qed.

Lemma nodes_at_node_dist_0_0_witness :
  path_to_root (heap tree) C [B; R] ∧
  pllmod_rtree_nodes_at_node_dist 2 (Some C)
      ([None; None; None; None; None], 7) 0 0 tree
    = Done (PLL_SUCCESS, ([Some B; Some R; None; None; None], 2)) tree.
Proof.
  assert (Hpath : path_to_root (heap tree) C [B; R]).
  { apply (path_step _ C (mk_rtree None None (Some B)) B
             (mk_rtree (Some C) (Some D) (Some R)));
      [reflexivity | reflexivity | reflexivity | left; reflexivity |].
    apply (path_step _ B (mk_rtree (Some C) (Some D) (Some R)) R
             (mk_rtree (Some A) (Some B) None));
      [reflexivity | reflexivity | reflexivity | right; reflexivity |].
    apply (path_root _ R (mk_rtree (Some A) (Some B) None)); reflexivity. }
  split; [exact Hpath|].
  apply (nodes_at_node_dist_0_0 2 tree C [B; R]
           [None; None; None; None; None] 7 Hpath);
    simpl; lia.
Defined.

(** * Further properties *)

(** ** The accessor *)

(** X1. On a node [n] that has a parent [p], the accessor returns, and it
    returns failure exactly when neither child cell of [p] holds [n]; it
    then reports both cells absent and leaves InvalidTree in the error
    register, the nodes being untouched. *)
Theorem get_sister_fails_iff_inconsistent (s : state) (n p : addr)
    (nd pd : pll_rtree_t) :
  heap s !! n = Some nd → parent nd = Some p → heap s !! p = Some pd →
  ∃ st self sister s',
    pllmod_rtree_get_sister (Some n) s = Done (st, self, sister) s' ∧
    (st = PLL_FAILURE ↔ left pd ≠ Some n ∧ right pd ≠ Some n) ∧
    (st = PLL_FAILURE →
     self = None ∧ sister = None ∧
     s' = mk_state (heap s) (Some PLLMOD_TREE_ERROR_INVALID_TREE)).
Proof.
  intros Hn Hp Hpd.
  destruct (decide (left pd = Some n)) as [Hl|Hl];
    [|destruct (decide (right pd = Some n)) as [Hr|Hr]].
  - destruct (get_sister_run s n nd p pd) as (self & -> & _); eauto.
    eexists _, _, _, _. split; [done|]. split; [|done].
    split; [done | by intros [? _]].
  - destruct (get_sister_run s n nd p pd) as (self & -> & _); eauto.
    eexists _, _, _, _. split; [done|]. split; [|done].
    split; [done | by intros [_ ?]].
  - exists PLL_FAILURE, None, None,
      (mk_state (heap s) (Some PLLMOD_TREE_ERROR_INVALID_TREE)).
    split; [|done].
    unfold pllmod_rtree_get_sister.
    rewrite (bind_run _ _ _ _ _ (get_parent_run s n nd Hn)), Hp.
    rewrite (bind_run _ _ s (left pd) s) by (apply get_left_Done; eauto 10).
    unfold ptr_eqb. rewrite bool_decide_false by done.
    rewrite (bind_run _ _ s (right pd) s) by (apply get_right_Done; eauto 10).
    by rewrite bool_decide_false by done.
Qed.

Lemma get_sister_fails_iff_inconsistent_witness :
  heap ExampleBroken.tree !! B = Some (mk_rtree (Some C) (Some D) (Some R)) ∧
  heap ExampleBroken.tree !! R
    = Some (mk_rtree (Some A) (Some ExampleBroken.X) None) ∧
  ∃ st self sister s',
    pllmod_rtree_get_sister (Some B) ExampleBroken.tree
      = Done (st, self, sister) s' ∧
    (st = PLL_FAILURE ↔ Some A ≠ Some B ∧ Some ExampleBroken.X ≠ Some B) ∧
    (st = PLL_FAILURE →
     self = None ∧ sister = None ∧
     s' = mk_state (heap ExampleBroken.tree)
            (Some PLLMOD_TREE_ERROR_INVALID_TREE)).
Proof.
  do 2 (split; [reflexivity|]).
  apply (get_sister_fails_iff_inconsistent ExampleBroken.tree B R
           (mk_rtree (Some C) (Some D) (Some R))
           (mk_rtree (Some A) (Some ExampleBroken.X) None));
    reflexivity.
Defined.

(** X2. The accessor is read-only: whatever it returns, the nodes are
    those it started from.  On success the whole state is unchanged and the
    two cells are reported together or not at all; on failure both are
    absent and the error register holds InvalidTree. *)
Theorem get_sister_read_only (node : ptr) (s s' : state) (st : pll_status)
    (self sister : option slot) :
  pllmod_rtree_get_sister node s = Done (st, self, sister) s' →
  heap s' = heap s ∧
  (st = PLL_SUCCESS → s' = s ∧ (is_Some self ↔ is_Some sister)) ∧
  (st = PLL_FAILURE →
   self = None ∧ sister = None ∧
   pll_errno s' = Some PLLMOD_TREE_ERROR_INVALID_TREE).
Proof.
  intros (n & nd & -> & Hn & Hcase)%get_sister_inv.
  destruct Hcase as [(_ & [= -> -> ->] & ->)|(p & pd & _ & _ & Hcase)].
  { repeat split; try done; by intros [? [=]]. }
  destruct Hcase as [(_ & [= -> -> ->] & ->)|[(_ & _ & [= -> -> ->] & ->)|(_ & _ & [= -> -> ->] & ->)]];
    repeat split; try done; eauto.
Qed.

Lemma get_sister_read_only_witness :
  pllmod_rtree_get_sister (Some B) ExampleBroken.tree
    = Done (PLL_FAILURE, None, None)
        (mk_state (heap ExampleBroken.tree)
                  (Some PLLMOD_TREE_ERROR_INVALID_TREE)) ∧
  heap (mk_state (heap ExampleBroken.tree)
                 (Some PLLMOD_TREE_ERROR_INVALID_TREE))
    = heap ExampleBroken.tree.
Proof.
  assert (H : pllmod_rtree_get_sister (Some B) ExampleBroken.tree
    = Done (PLL_FAILURE, None, None)
        (mk_state (heap ExampleBroken.tree)
                  (Some PLLMOD_TREE_ERROR_INVALID_TREE)))
    by (vm_compute; reflexivity).
  split; [exact H|].
  exact (proj1 (get_sister_read_only _ _ _ _ _ _ H)).
Defined.

(** X3. The accessor is symmetric between sisters: when it reports the
    cells [self] and [sister] for [n], and [sister] holds a node [x] other
    than [n] whose parent is the parent of [n], then for [x] it reports the
    same two cells, exchanged. *)
Theorem get_sister_of_the_sister (s : state) (n x p : addr)
    (nd xd pd : pll_rtree_t) (self sister : slot) :
  heap s !! n = Some nd → parent nd = Some p →
  heap s !! x = Some xd → parent xd = Some p →
  heap s !! p = Some pd → n ≠ x →
  pllmod_rtree_get_sister (Some n) s
    = Done (PLL_SUCCESS, Some self, Some sister) s →
  slot_field sister pd = Some x →
  pllmod_rtree_get_sister (Some x) s
    = Done (PLL_SUCCESS, Some sister, Some self) s.
Proof.
  intros Hn Hp Hx Hxp Hpd Hnx Hsis Hfield.
  apply (get_sister_child_cases _ _ _ _ _ _ Hn Hp) in Hsis
    as (pd' & Hpd' & [[[=] _]|(c & [= <- ->] & Howner & Hself & _)]).
  assert (pd' = pd) as -> by congruence.
  destruct (get_sister_run s x xd p pd Hx Hxp Hpd) as (c' & -> & Howner' & Hc').
  { destruct self; simpl in *; eauto. }
  assert (c' = slot_other self) as ->.
  { destruct self, c'; simpl in *; congruence. }
  by destruct self.
Qed.

Lemma get_sister_of_the_sister_witness :
  pllmod_rtree_get_sister (Some C) tree
    = Done (PLL_SUCCESS, Some (LeftOf B), Some (RightOf B)) tree ∧
  pllmod_rtree_get_sister (Some D) tree
    = Done (PLL_SUCCESS, Some (RightOf B), Some (LeftOf B)) tree.
Proof.
  assert (H : pllmod_rtree_get_sister (Some C) tree
    = Done (PLL_SUCCESS, Some (LeftOf B), Some (RightOf B)) tree)
    by (vm_compute; reflexivity).
  split; [exact H|].
  apply (get_sister_of_the_sister tree C D B
           (mk_rtree None None (Some B)) (mk_rtree None None (Some B))
           (mk_rtree (Some C) (Some D) (Some R)) (LeftOf B) (RightOf B));
    try reflexivity; first [discriminate | exact H].
Defined.

(** ** The prune operator *)

Lemma get_parent_errno p s v s' :
  get_parent p s = Done v s' → pll_errno s' = pll_errno s.
Proof. by intros (? & ? & _ & _ & _ & ->)%get_parent_Done. Qed.

Lemma load_slot_errno sl s v s' :
  load_slot sl s = Done v s' → pll_errno s' = pll_errno s.
Proof. by intros (? & ? & _ & _ & _ & ->)%load_slot_Done. Qed.

Lemma store_slot_errno sl v s u s' :
  store_slot sl v s = Done u s' → pll_errno s' = pll_errno s.
Proof. by intros (? & ? & _ & _ & ->)%store_slot_Done. Qed.

Lemma set_parent_errno p v s u s' :
  set_parent p v s = Done u s' → pll_errno s' = pll_errno s.
Proof. by intros (? & ? & _ & _ & ->)%set_parent_Done. Qed.

Lemma assert_errno' b s u s' :
  assert b s = Done u s' → pll_errno s' = pll_errno s.
Proof. by intros [_ ->]%assert_Done. Qed.

Lemma get_sister_success_state node s self sister s' :
  pllmod_rtree_get_sister node s = Done (PLL_SUCCESS, self, sister) s' → s' = s.
Proof.
  intros (n & nd & -> & Hn & Hcase)%get_sister_inv.
  destruct Hcase as [(_ & _ & ->)|(p & pd & _ & _ & Hcase)]; [done|].
  by destruct Hcase as [(_ & _ & ->)|[(_ & _ & _ & ->)|(_ & _ & [=] & _)]].
Qed.

Ltac errno_step H E :=
  apply bind_Done in H as (? & ? & E & H);
  first [ apply get_parent_errno in E
        | apply load_slot_errno in E
        | apply store_slot_errno in E
        | apply set_parent_errno in E
        | apply assert_errno' in E ].

(** A prune that returns a node has not touched the error register. *)
Lemma prune_success_errno node s c s' :
  pllmod_rtree_prune node s = Done (Some c) s' → pll_errno s' = pll_errno s.
Proof.
  unfold pllmod_rtree_prune. intros H.
  errno_step H E0. errno_step H E1.
  match type of H with context [match ?x with _ => _ end] => destruct x end.
  2:{ by apply bind_Done in H as (? & ? & _ & [[=] _]%mret_Done). }
  apply bind_Done in H as ([[st self] sister] & s1 & Hsis & H).
  destruct st; [|by apply mret_Done in H as [[=] _]].
  apply get_sister_success_state in Hsis as ->.
  errno_step H E2. errno_step H E3. errno_step H E4.
  match type of H with context [match ?x with _ => _ end] => destruct x end.
  - errno_step H E5. errno_step H E6. errno_step H E7.
    apply bind_Done in H as ([[st self2] sister2] & s2 & Hsis2 & H).
    destruct st; [|by apply mret_Done in H as [[=] _]].
    apply get_sister_success_state in Hsis2 as ->.
    errno_step H E8. errno_step H E9. errno_step H E10. errno_step H E11.
    errno_step H E12. errno_step H E13. errno_step H E14. errno_step H E15.
    errno_step H E16. errno_step H E17.
    apply mret_Done in H as [_ <-]. congruence.
  - errno_step H E5. errno_step H E6.
    apply mret_Done in H as [_ <-]. congruence.
Qed.

(** Writing a child cell changes no parent field. *)
Lemma store_slot_parents sl v s u s' :
  store_slot sl v s = Done u s' →
  ∀ a, parent <$> heap s' !! a = parent <$> heap s !! a.
Proof.
  intros (c & nd & -> & Hnd & ->)%store_slot_Done a. simpl.
  destruct (decide (a = slot_owner c)) as [->|Hne].
  - rewrite lookup_insert_eq, Hnd. simpl. by rewrite slot_update_parent.
  - by rewrite lookup_insert_ne.
Qed.

(** Writing a parent field changes that node only. *)
Lemma set_parent_lookup b v s u s' :
  set_parent (Some b) v s = Done u s' →
  (∃ bd, heap s !! b = Some bd ∧
         heap s' !! b = Some (mk_rtree (left bd) (right bd) v)) ∧
  ∀ a, a ≠ b → heap s' !! a = heap s !! a.
Proof.
  intros (? & bd & [= <-] & Hbd & ->)%set_parent_Done. simpl. split.
  - exists bd. by rewrite lookup_insert_eq.
  - intros a Ha. by rewrite lookup_insert_ne.
Qed.

(** A cell that holds [v] still holds [v] after [v] is written to any
    cell. *)
Lemma store_same_value c d v s u s1 w s2 :
  store_slot (Some c) v s = Done u s1 →
  load_slot (Some d) s = Done v s →
  load_slot (Some d) s1 = Done w s2 → w = v.
Proof.
  intros (? & nd & [= <-] & Hnd & ->)%store_slot_Done
         (? & dd & [= <-] & Hdd & Hv & _)%load_slot_Done
         (? & dd1 & [= <-] & Hdd1 & -> & _)%load_slot_Done.
  simpl in Hdd1. destruct (decide (slot_owner d = slot_owner c)) as [Heq|Hne].
  - rewrite Heq, lookup_insert_eq in Hdd1. injection Hdd1 as <-.
    rewrite Heq in Hdd. assert (dd = nd) as -> by congruence.
    destruct c, d; simpl in *; congruence.
  - rewrite lookup_insert_ne in Hdd1 by done. congruence.
Qed.

(** The parent that the pruned node had is parentless after a prune that
    returned a node, unless it held the pruned node in both child cells. *)
Lemma prune_original_parent (s s' : state) (n p c : addr)
    (nd pd : pll_rtree_t) :
  heap s !! n = Some nd → parent nd = Some p → heap s !! p = Some pd →
  ¬ (left pd = Some n ∧ right pd = Some n) →
  pllmod_rtree_prune (Some n) s = Done (Some c) s' →
  ∃ pd', heap s' !! p = Some pd' ∧ parent pd' = None ∧
         (n ≠ p → ∃ nd', heap s' !! n = Some nd' ∧ parent nd' = Some p).
Proof.
  intros Hn Hp Hpd Hboth H. unfold pllmod_rtree_prune in H.
  apply bind_Done in H as ([] & ? & [_ ->]%assert_Done & H).
  rewrite (bind_run _ _ _ _ _ (get_parent_run s n nd Hn)), Hp in H.
  apply bind_Done in H as ([[st self_ptr] sister_ptr] & s1 & Hsis & H).
  pose proof Hsis as Hsis'.
  apply (get_sister_child_cases _ _ _ _ _ _ Hn Hp) in Hsis'
    as (pd0 & Hpd0 & [[[= -> -> ->] ->]|(self & [= -> -> ->] & Howner & Hself & ->)]).
  { by apply mret_Done in H as [[=] _]. }
  assert (pd0 = pd) as -> by congruence.
  assert (slot_field (slot_other self) pd ≠ Some n) as Hx.
  { intros Hx. apply Hboth. destruct self; simpl in *; done. }
  cbn beta iota in H.
  apply bind_Done in H as ([] & ? & [_ ->]%assert_Done & H).
  assert (get_parent (Some n) s = Done (Some p) s) as Hgn
    by (by rewrite (get_parent_run s n nd Hn), Hp).
  rewrite (bind_run _ _ _ _ _ Hgn) in H.
  rewrite (bind_run _ _ _ _ _ (get_parent_run s p pd Hpd)) in H.
  assert (heap s !! slot_owner (slot_other self) = Some pd) as Hpd'
    by (by rewrite slot_other_owner, Howner).
  destruct (parent pd) as [g|] eqn:Hg; last first.
  { rewrite (bind_run _ _ _ _ _ (load_slot_run s _ pd Hpd')) in H.
    rewrite (bind_run _ _ _ _ _ (store_slot_run s _ None pd Hpd')) in H.
    apply mret_Done in H as [_ <-]. simpl.
    rewrite slot_other_owner, Howner, lookup_insert_eq.
    eexists. split; [done|]. split; [by rewrite slot_update_parent|].
    intros Hnp. exists nd. by rewrite lookup_insert_ne. }
  rewrite (bind_run _ _ _ _ _ Hgn) in H.
  rewrite (bind_run _ _ _ _ _ (get_parent_run s p pd Hpd)), Hg in H.
  rewrite (bind_run _ _ _ _ _ Hgn) in H.
  apply bind_Done in H as ([[st parent_ptr] ?] & s1 & Hsis2 & H).
  destruct st; [|by apply mret_Done in H as [[=] _]].
  apply get_sister_success_state in Hsis2 as ->.
  apply bind_Done in H as ([] & ? & [_ ->]%assert_Done & H).
  rewrite (bind_run _ _ _ _ _ (load_slot_run s _ pd Hpd')) in H.
  apply bind_Done in H as ([] & s1 & Hstore1 & H).
  apply bind_Done in H as (sis & ? & Hload1 & H).
  pose proof Hload1 as (? & ? & _ & _ & _ & ->)%load_slot_Done.
  assert (sis = slot_field (slot_other self) pd) as ->.
  { destruct parent_ptr as [c0|];
      [|by apply store_slot_Done in Hstore1 as (? & ? & [=] & _)].
    eapply store_same_value; [done| |done]. by apply load_slot_run. }
  pose proof (store_slot_parents _ _ _ _ _ Hstore1) as Hpar1.
  assert (∃ nd1, heap s1 !! n = Some nd1 ∧ parent nd1 = Some p)
    as (nd1 & Hn1 & Hp1).
  { specialize (Hpar1 n). rewrite Hn in Hpar1. simpl in Hpar1.
    destruct (heap s1 !! n) as [nd1|]; [|done].
    exists nd1. split; [done|]. simpl in Hpar1. congruence. }
  rewrite (bind_run _ _ _ _ _ (get_parent_run s1 n nd1 Hn1)), Hp1 in H.
  apply bind_Done in H as (npp & ? & (? & ? & _ & _ & _ & ->)%get_parent_Done & H).
  apply bind_Done in H as ([] & s2 & Hset & H).
  destruct (slot_field (slot_other self) pd) as [x|] eqn:Hxx;
    [|by apply set_parent_Done in Hset as (? & ? & [=] & _)].
  apply set_parent_lookup in Hset as [_ Hframe2].
  assert (heap s2 !! n = Some nd1) as Hn2
    by (rewrite Hframe2; [done | congruence]).
  apply bind_Done in H as ([] & s3 & Hstore3 & H).
  pose proof (store_slot_parents _ _ _ _ _ Hstore3) as Hpar3.
  assert (∃ nd3, heap s3 !! n = Some nd3 ∧ parent nd3 = Some p)
    as (nd3 & Hn3 & Hp3).
  { specialize (Hpar3 n). rewrite Hn2 in Hpar3. simpl in Hpar3.
    destruct (heap s3 !! n) as [nd3|]; [|done].
    exists nd3. split; [done|]. simpl in Hpar3. congruence. }
  rewrite (bind_run _ _ _ _ _ (get_parent_run s3 n nd3 Hn3)), Hp3 in H.
  apply bind_Done in H as ([] & s4 & Hset4 & [_ <-]%mret_Done).
  apply set_parent_lookup in Hset4 as [(pd3 & _ & Hp4) Hframe4].
  eexists. split; [exact Hp4|]. split; [done|].
  intros Hnp. exists nd3. split; [|done]. by rewrite Hframe4.
Qed.

(** X4. After a prune of [n] that returns a node, on any heap: the error
    register is unchanged; in the resulting heap [n] has no parent, or the
    node that [n] names as its parent there has no parent; and if the parent
    [p] that [n] had before the call did not hold [n] in both of its child
    cells, then [p] has no parent in the resulting heap and [n], unless it is
    [p] itself, still names [p] as its parent. *)
Theorem prune_detaches_parent (s s' : state) (n c : addr) :
  pllmod_rtree_prune (Some n) s = Done (Some c) s' →
  pll_errno s' = pll_errno s ∧
  (∃ nd', heap s' !! n = Some nd' ∧
     (parent nd' = None ∨
      ∃ q qd, parent nd' = Some q ∧ heap s' !! q = Some qd ∧
              parent qd = None)) ∧
  (∀ nd p pd,
     heap s !! n = Some nd → parent nd = Some p → heap s !! p = Some pd →
     ¬ (left pd = Some n ∧ right pd = Some n) →
     ∃ pd', heap s' !! p = Some pd' ∧ parent pd' = None ∧
            (n ≠ p → ∃ nd', heap s' !! n = Some nd' ∧ parent nd' = Some p)).
Proof.
  intros Hprune. split; [by eapply prune_success_errno|]. split.
  - apply prune_detached in Hprune as (? & [= <-] & Hdet).
    destruct Hdet as [Hnone|(q & Hq & Hqnone)].
    + apply get_parent_Done in Hnone as (? & nd' & [= <-] & Hn' & Hp & _).
      exists nd'. split; [done|]. by left.
    + apply get_parent_Done in Hq as (? & nd' & [= <-] & Hn' & Hp & _).
      apply get_parent_Done in Hqnone as (? & qd & [= <-] & Hq' & Hqp & _).
      exists nd'. split; [done|]. right. by exists q, qd.
  - intros nd p pd Hn Hp Hpd Hboth.
    by eapply prune_original_parent.
Qed.

Lemma prune_detaches_parent_witness :
  pllmod_rtree_prune (Some C) tree = Done (Some R) pruned_C ∧
  pll_errno pruned_C = pll_errno tree ∧
  (∃ nd', heap pruned_C !! C = Some nd' ∧
     (parent nd' = None ∨
      ∃ q qd, parent nd' = Some q ∧ heap pruned_C !! q = Some qd ∧
              parent qd = None)) ∧
  (∃ pd', heap pruned_C !! B = Some pd' ∧ parent pd' = None ∧
          (C ≠ B → ∃ nd', heap pruned_C !! C = Some nd' ∧
                          parent nd' = Some B)).
Proof.
  assert (H : pllmod_rtree_prune (Some C) tree = Done (Some R) pruned_C)
    by (vm_compute; reflexivity).
  destruct (prune_detaches_parent tree pruned_C C R H) as (He & Hpost & Hp).
  split; [exact H|]. split; [exact He|]. split; [exact Hpost|].
  apply (Hp (mk_rtree None None (Some B)) B
            (mk_rtree (Some C) (Some D) (Some R))); try reflexivity.
  intros [_ [=]].
Defined.

(** X5. Pruning the only child of a parentless node, whose other child
    cell is empty, returns NULL although nothing is wrong with the node: no
    error is set and the state is unchanged, so the NULL is the empty
    sister cell handed back as the connected node. *)
Theorem prune_returns_null_quietly (s : state) (n p : addr)
    (nd pd : pll_rtree_t) (self : slot) :
  heap s !! n = Some nd → parent nd = Some p →
  heap s !! p = Some pd → parent pd = None →
  slot_owner self = p → slot_field self pd = Some n →
  slot_field (slot_other self) pd = None →
  pllmod_rtree_prune (Some n) s = Done None s.
Proof.
  intros Hn Hp Hpd Hpp Howner Hself Hother.
  destruct (get_sister_run s n nd p pd Hn Hp Hpd) as (self' & Hsis & Howner' & Hself').
  { destruct self; simpl in *; eauto. }
  assert (self' = self) as ->.
  { destruct self, self'; simpl in *; congruence. }
  pose proof (get_parent_run s n nd Hn) as Hgn. rewrite Hp in Hgn.
  pose proof (get_parent_run s p pd Hpd) as Hgp. rewrite Hpp in Hgp.
  assert (heap s !! slot_owner (slot_other self) = Some pd) as Hpd'
    by (by rewrite slot_other_owner, Howner).
  unfold pllmod_rtree_prune.
  rewrite (bind_run _ _ s tt s) by done.
  rewrite (bind_run _ _ _ _ _ Hgn), (bind_run _ _ _ _ _ Hsis).
  rewrite (bind_run _ _ s tt s) by done.
  rewrite (bind_run _ _ _ _ _ Hgn), (bind_run _ _ _ _ _ Hgp).
  rewrite (bind_run _ _ _ _ _ (load_slot_run s _ pd Hpd')).
  rewrite (bind_run _ _ _ _ _ (store_slot_run s _ None pd Hpd')).
  rewrite Hother. unfold mret, M_ret. f_equal.
  rewrite insert_id; [by destruct s|].
  rewrite Hpd'. f_equal. destruct self, pd; simpl in *; congruence.
Qed.

Lemma prune_returns_null_quietly_witness :
  heap pruned_C !! C = Some (mk_rtree None None (Some B)) ∧
  heap pruned_C !! B = Some (mk_rtree (Some C) None None) ∧
  pllmod_rtree_prune (Some C) pruned_C = Done None pruned_C.
Proof.
  do 2 (split; [reflexivity|]).
  apply (prune_returns_null_quietly pruned_C C B
           (mk_rtree None None (Some B)) (mk_rtree (Some C) None None)
           (LeftOf B));
    reflexivity.
Defined.

(** X6. Pruning [n] from under a parent [p] that has a parent [g], in a
    heap where the nodes involved are distinct and linked consistently,
    returns [g] and leaves the error register alone.  [n] is unchanged; [p]
    is parentless, holds [n] where it did and nothing in its other cell;
    the cell of [g] that held [p] holds the sister [x], the other cell and
    the parent of [g] being as before; [x] names [g] as its parent and
    keeps its children; no other node is written. *)
Theorem prune_grandparent_splices_sister (s : state) (n p g x : addr)
    (nd pd gd xd : pll_rtree_t) (self gself : slot) :
  heap s !! n = Some nd → parent nd = Some p →
  heap s !! p = Some pd → parent pd = Some g →
  heap s !! g = Some gd → heap s !! x = Some xd →
  slot_owner self = p → slot_field self pd = Some n →
  slot_field (slot_other self) pd = Some x →
  slot_owner gself = g → slot_field gself gd = Some p →
  slot_field (slot_other gself) gd ≠ Some p →
  n ≠ p → n ≠ g → n ≠ x → x ≠ p → x ≠ g → p ≠ g →
  ∃ s' pd' gd',
    pllmod_rtree_prune (Some n) s = Done (Some g) s' ∧
    pll_errno s' = pll_errno s ∧
    heap s' !! n = Some nd ∧
    heap s' !! p = Some pd' ∧
    parent pd' = None ∧ slot_field self pd' = Some n ∧
    slot_field (slot_other self) pd' = None ∧
    heap s' !! g = Some gd' ∧
    parent gd' = parent gd ∧ slot_field gself gd' = Some x ∧
    slot_field (slot_other gself) gd' = slot_field (slot_other gself) gd ∧
    heap s' !! x = Some (mk_rtree (left xd) (right xd) (Some g)) ∧
    (∀ a, a ≠ p → a ≠ g → a ≠ x → heap s' !! a = heap s !! a).
Proof.
  intros Hn Hp Hpd Hpp Hgd Hx Howner Hself Hother Hgowner Hgself Hgother
    Hnp Hng Hnx Hxp Hxg Hpg.
  destruct (prune_with_grandparent s n p g x nd pd gd xd self gself)
    as (s' & Hprune & Hn' & Hp' & Hg' & Hx' & Hframe); try done.
  eexists s', _, _. split; [done|].
  split; [by eapply prune_success_errno|].
  split; [done|]. split; [exact Hp'|].
  split; [done|]. split; [by destruct self|]. split; [by destruct self|].
  split; [exact Hg'|].
  split; [by destruct gself|]. split; [by destruct gself|].
  split; [by destruct gself|]. done.
Qed.

Lemma prune_grandparent_splices_sister_witness :
  heap tree !! C = Some (mk_rtree None None (Some B)) ∧
  heap tree !! B = Some (mk_rtree (Some C) (Some D) (Some R)) ∧
  heap tree !! R = Some (mk_rtree (Some A) (Some B) None) ∧
  heap tree !! D = Some (mk_rtree None None (Some B)) ∧
  ∃ s' pd' gd',
    pllmod_rtree_prune (Some C) tree = Done (Some R) s' ∧
    pll_errno s' = pll_errno tree ∧
    heap s' !! C = Some (mk_rtree None None (Some B)) ∧
    heap s' !! B = Some pd' ∧
    parent pd' = None ∧ left pd' = Some C ∧ right pd' = None ∧
    heap s' !! R = Some gd' ∧
    parent gd' = None ∧ right gd' = Some D ∧ left gd' = Some A ∧
    heap s' !! D = Some (mk_rtree None None (Some R)) ∧
    (∀ a, a ≠ B → a ≠ R → a ≠ D → heap s' !! a = heap tree !! a).
Proof.
  do 4 (split; [reflexivity|]).
  apply (prune_grandparent_splices_sister tree C B R D
           (mk_rtree None None (Some B)) (mk_rtree (Some C) (Some D) (Some R))
           (mk_rtree (Some A) (Some B) None) (mk_rtree None None (Some B))
           (LeftOf B) (RightOf R));
    try reflexivity; discriminate.
Defined.

Lemma I1_spec s : I1 s = true ↔ ∀ a, I1_at (heap s) a = true.
Proof.
  unfold I1. rewrite forallb_forall. split.
  - intros H a. destruct (heap s !! a) as [nd|] eqn:Ha.
    + apply H, list_elem_of_In, list_elem_of_fmap.
      exists (a, nd). split; [done|]. by apply elem_of_map_to_list.
    + unfold I1_at. by rewrite Ha.
  - intros H a _. apply H.
Qed.

(** X7. Pruning below a grandparent keeps invariant I1, under these
    conditions on the heap before the call: the pruned node [n] has a parent
    [p]; [p] holds [n] in one child cell and a node [x] in the other, and [x]
    names [p] as its parent; [p] has a parent [g], which holds [p] in one
    child cell and does not hold [x] in the other; [g] is none of [n], [p]
    and [x]; and every node of the heap is held by exactly one child cell of
    the node it names as its parent (I1). Then the prune of [n] returns [g],
    and in the resulting heap every node is again held by exactly one child
    cell of the node it names as its parent, in the remainder tree and in the
    detached fragment alike. The condition that [g] does not hold [x]
    cannot be dropped: see [prune_shared_sister_breaks_I1]. *)
Theorem prune_grandparent_preserves_I1 (s : state) (n p g x : addr)
    (nd pd gd xd : pll_rtree_t) (self gself : slot) :
  heap s !! n = Some nd → parent nd = Some p →
  heap s !! p = Some pd → parent pd = Some g →
  heap s !! g = Some gd → heap s !! x = Some xd → parent xd = Some p →
  slot_owner self = p → slot_field self pd = Some n →
  slot_field (slot_other self) pd = Some x →
  slot_owner gself = g → slot_field gself gd = Some p →
  slot_field (slot_other gself) gd ≠ Some x →
  n ≠ g → x ≠ g → p ≠ g →
  I1 s = true →
  ∃ s',
    pllmod_rtree_prune (Some n) s = Done (Some g) s' ∧ I1 s' = true.
Proof.
  intros Hn Hp Hpd Hpp Hgd Hx Hxp Howner Hself Hother Hgowner Hgself
    Hgother' Hng Hxg Hpg HI1.
  rewrite I1_spec in HI1.
  assert (n ≠ p) as Hnp by (intros ->; congruence).
  assert (x ≠ p) as Hxp' by (intros ->; congruence).
  assert (n ≠ x) as Hnx.
  { intros ->. specialize (HI1 x). unfold I1_at, ptr_eqb in HI1.
    rewrite Hn, Hp, Hpd in HI1.
    destruct self; simpl in *; rewrite Hself, Hother in HI1;
      repeat case_bool_decide; simplify_eq; done. }
  assert (slot_field (slot_other gself) gd ≠ Some p) as Hgother.
  { intros Hgo. specialize (HI1 p). unfold I1_at, ptr_eqb in HI1.
    rewrite Hpd, Hpp, Hgd in HI1.
    destruct gself; simpl in *; rewrite Hgself, Hgo in HI1;
      repeat case_bool_decide; simplify_eq; done. }
  destruct (prune_with_grandparent s n p g x nd pd gd xd self gself)
    as (s' & Hprune & Hn' & Hp' & Hg' & Hx' & Hframe); try done.
  exists s'. split; [done|]. apply I1_spec. intros a. unfold I1_at.
  destruct (decide (a = p)) as [->|Hap]; [by rewrite Hp'|].
  destruct (decide (a = g)) as [->|Hag].
  { rewrite Hg', slot_update_parent.
    destruct (parent gd) as [q|] eqn:Hq; [|done].
    specialize (HI1 g). unfold I1_at in HI1. rewrite Hgd, Hq in HI1.
    destruct (decide (q = p)) as [->|Hqp].
    { exfalso. rewrite Hpd in HI1. unfold ptr_eqb in HI1.
      destruct self; simpl in *; rewrite Hself, Hother in HI1;
        repeat case_bool_decide; simplify_eq; done. }
    destruct (decide (q = g)) as [->|Hqg].
    { rewrite Hg'. rewrite Hgd in HI1. unfold ptr_eqb in *.
      destruct gself; simpl in *; rewrite Hgself in HI1;
        repeat case_bool_decide; simplify_eq; done. }
    destruct (decide (q = x)) as [->|Hqx].
    { rewrite Hx'. by rewrite Hx in HI1. }
    by rewrite Hframe. }
  destruct (decide (a = x)) as [->|Hax].
  { rewrite Hx'. simpl. rewrite Hg'. unfold ptr_eqb.
    destruct gself; simpl in *;
      repeat case_bool_decide; simplify_eq; done. }
  rewrite Hframe by done.
  specialize (HI1 a). unfold I1_at in HI1.
  destruct (heap s !! a) as [ad|] eqn:Ha; [|done].
  destruct (parent ad) as [q|] eqn:Hq; [|done].
  destruct (decide (q = p)) as [->|Hqp].
  { rewrite Hp'. rewrite Hpd in HI1. unfold ptr_eqb in *.
    assert (a = n) as ->.
    { destruct self; simpl in *; rewrite Hself, Hother in HI1;
        repeat case_bool_decide; simplify_eq; done. }
    destruct self; simpl in *; rewrite Hself;
      repeat case_bool_decide; simplify_eq; done. }
  destruct (decide (q = g)) as [->|Hqg].
  { rewrite Hg'. rewrite Hgd in HI1. unfold ptr_eqb in *.
    destruct gself; simpl in *; rewrite Hgself in HI1;
      repeat case_bool_decide; simplify_eq; done. }
  destruct (decide (q = x)) as [->|Hqx].
  { rewrite Hx'. by rewrite Hx in HI1. }
  by rewrite Hframe.
Qed.

Lemma prune_grandparent_preserves_I1_witness :
  I1 tree = true ∧
  ∃ s', pllmod_rtree_prune (Some C) tree = Done (Some R) s' ∧ I1 s' = true.
Proof.
  split; [vm_compute; reflexivity|].
  apply (prune_grandparent_preserves_I1 tree C B R D
           (mk_rtree None None (Some B)) (mk_rtree (Some C) (Some D) (Some R))
           (mk_rtree (Some A) (Some B) None) (mk_rtree None None (Some B))
           (LeftOf B) (RightOf R));
    try reflexivity; discriminate.
Defined.

(** The condition that the grandparent does not already hold the sister is
    needed: in [ExampleShared.tree] every node is held once by its parent,
    yet after the prune of 3 node 1 holds 4 in both child cells. *)
Lemma prune_shared_sister_breaks_I1 :
  I1 ExampleShared.tree = true ∧
  ∃ s', pllmod_rtree_prune (Some 3%nat) ExampleShared.tree = Done (Some 1%nat) s' ∧
        heap s' !! 1%nat = Some (mk_rtree (Some 4%nat) (Some 4%nat) None) ∧
        I1 s' = false.
Proof.
  split; [vm_compute; reflexivity|].
  eexists. split; [vm_compute; reflexivity|].
  split; vm_compute; reflexivity.
Qed.

(** ** The regraft operator *)

(** X8. The regraft rejects, with InvalidNode and before looking at the
    target at all (which may even be NULL), a node that has no parent and a
    node whose parent has a parent; no node is written. *)
Theorem regraft_rejects_undetached (s : state) (n : addr) (nd : pll_rtree_t)
    (tree : ptr) :
  heap s !! n = Some nd →
  (parent nd = None ∨
   ∃ p pd, parent nd = Some p ∧ heap s !! p = Some pd ∧ is_Some (parent pd)) →
  pllmod_rtree_regraft (Some n) tree s
    = Done PLL_FAILURE
        (mk_state (heap s) (Some PLLMOD_TREE_ERROR_SPR_INVALID_NODE)).
Proof.
  intros Hn [Hp|(p & pd & Hp & Hpd & Hg)].
  - apply regraft_parentless. by rewrite (get_parent_run s n nd Hn), Hp.
  - unfold pllmod_rtree_regraft.
    rewrite (bind_run _ _ _ _ _ (get_parent_run s n nd Hn)), Hp.
    rewrite (bind_run _ _ s true s); [done|].
    rewrite (bind_run _ _ _ _ _ (get_parent_run s p pd Hpd)).
    by rewrite bool_decide_true.
Qed.

Lemma regraft_rejects_undetached_witness :
  heap tree !! C = Some (mk_rtree None None (Some B)) ∧
  pllmod_rtree_regraft (Some C) (Some A) tree
    = Done PLL_FAILURE
        (mk_state (heap tree) (Some PLLMOD_TREE_ERROR_SPR_INVALID_NODE)) ∧
  heap tree !! R = Some (mk_rtree (Some A) (Some B) None) ∧
  pllmod_rtree_regraft (Some R) None tree
    = Done PLL_FAILURE
        (mk_state (heap tree) (Some PLLMOD_TREE_ERROR_SPR_INVALID_NODE)).
Proof.
  split; [reflexivity|]. split; [|split; [reflexivity|]].
  - apply (regraft_rejects_undetached tree C (mk_rtree None None (Some B)));
      [reflexivity|].
    right. exists B, (mk_rtree (Some C) (Some D) (Some R)).
    split; [reflexivity|]. split; [reflexivity|]. by exists R.
  - apply (regraft_rejects_undetached tree R
             (mk_rtree (Some A) (Some B) None));
      [reflexivity|]. left; reflexivity.
Defined.

(** X9. A regraft that returns failure has written to no node, and the
    error register then holds InvalidNode or InvalidTree: every check of
    the regraft precedes its first write. *)
Theorem regraft_failure_atomic (node tree : ptr) (s s' : state) :
  pllmod_rtree_regraft node tree s = Done PLL_FAILURE s' →
  heap s' = heap s ∧
  (pll_errno s' = Some PLLMOD_TREE_ERROR_SPR_INVALID_NODE ∨
   pll_errno s' = Some PLLMOD_TREE_ERROR_INVALID_TREE).
Proof.
  unfold pllmod_rtree_regraft.
  intros (np & s0 & (? & ? & _ & _ & _ & ->)%get_parent_Done & H)%bind_Done.
  apply bind_Done in H as (bad & s0 & Hbad & H).
  assert (s0 = s) as ->.
  { destruct np; [|by apply mret_Done in Hbad as [_ ->]].
    by apply bind_Done in Hbad
      as (? & ? & (? & ? & _ & _ & _ & ->)%get_parent_Done & [_ ->]%mret_Done). }
  destruct bad.
  { apply bind_Done in H as ([] & ? & ->%set_error_Done & [_ <-]%mret_Done).
    split; [done | by left]. }
  apply bind_Done in H as (pn & ? & (? & ? & _ & _ & _ & ->)%get_parent_Done & H).
  apply bind_Done in H as (tp & ? & (? & ? & _ & _ & _ & ->)%get_parent_Done & H).
  apply bind_Done in H as ([st efp] & s1 & Hfirst & H).
  assert ((st = PLL_SUCCESS ∧ s1 = s) ∨
          (st = PLL_FAILURE ∧
           s1 = mk_state (heap s) (Some PLLMOD_TREE_ERROR_INVALID_TREE)))
    as [[-> ->]|[-> ->]].
  { destruct tp; [|apply mret_Done in Hfirst as [[= <- <-] ->]; by left].
    apply bind_Done in Hfirst as ([[st' ?] ?] & s2 & Hsis & [[= <- <-] ->]%mret_Done).
    apply get_sister_inv in Hsis as (? & ? & _ & _ & Hcase).
    destruct Hcase as [(_ & [= -> _ _] & ->)|(? & ? & _ & _ & Hcase)]; [by left|].
    destruct Hcase as [(_ & [= -> _ _] & ->)|[(_ & _ & [= -> _ _] & ->)|(_ & _ & [= -> _ _] & ->)]];
      [by left | by left | by right]. }
  2:{ apply bind_Done in H as ([] & ? & [_ ->]%assert_errno_Done & [_ <-]%mret_Done).
      split; [done | by right]. }
  apply bind_Done in H as ([[st ?] etc] & s2 & Hsis & H).
  destruct st.
  { do 6 (apply bind_Done in H as (? & ? & _ & H)).
    by apply mret_Done in H as [[=] _]. }
  apply bind_Done in H as ([] & ? & [_ ->]%assert_errno_Done & [_ <-]%mret_Done).
  apply get_sister_inv in Hsis as (? & ? & _ & _ & Hcase).
  destruct Hcase as [(_ & [=] & _)|(? & ? & _ & _ & Hcase)].
  destruct Hcase as [(_ & [=] & _)|[(_ & _ & [=] & _)|(_ & _ & _ & ->)]].
  split; [done | by right].
Qed.

Lemma regraft_failure_atomic_witness :
  pllmod_rtree_regraft (Some A) (Some B) pruned_A
    = Done PLL_FAILURE
        (mk_state (heap pruned_A) (Some PLLMOD_TREE_ERROR_INVALID_TREE)) ∧
  heap (mk_state (heap pruned_A) (Some PLLMOD_TREE_ERROR_INVALID_TREE))
    = heap pruned_A.
Proof.
  assert (H : pllmod_rtree_regraft (Some A) (Some B) pruned_A
    = Done PLL_FAILURE
        (mk_state (heap pruned_A) (Some PLLMOD_TREE_ERROR_INVALID_TREE)))
    by (vm_compute; reflexivity).
  split; [exact H|].
  exact (proj1 (regraft_failure_atomic _ _ _ _ H)).
Defined.

(** X10. Regrafting a properly detached node onto a target that names a
    parent neither of whose child cells holds it fails with InvalidTree,
    no node being written. *)
Theorem regraft_inconsistent_target (s : state) (n p t g : addr)
    (nd pd td gd : pll_rtree_t) :
  heap s !! n = Some nd → parent nd = Some p →
  heap s !! p = Some pd → parent pd = None →
  heap s !! t = Some td → parent td = Some g →
  heap s !! g = Some gd → left gd ≠ Some t → right gd ≠ Some t →
  pllmod_rtree_regraft (Some n) (Some t) s
    = Done PLL_FAILURE
        (mk_state (heap s) (Some PLLMOD_TREE_ERROR_INVALID_TREE)).
Proof.
  intros Hn Hp Hpd Hpp Ht Htp Hgd Hl Hr.
  pose proof (get_parent_run s n nd Hn) as Hgn. rewrite Hp in Hgn.
  pose proof (get_parent_run s p pd Hpd) as Hgp. rewrite Hpp in Hgp.
  pose proof (get_parent_run s t td Ht) as Hgt. rewrite Htp in Hgt.
  assert (pllmod_rtree_get_sister (Some t) s
          = Done (PLL_FAILURE, None, None)
              (mk_state (heap s) (Some PLLMOD_TREE_ERROR_INVALID_TREE)))
    as Hsis.
  { unfold pllmod_rtree_get_sister. rewrite (bind_run _ _ _ _ _ Hgt).
    rewrite (bind_run _ _ s (left gd) s) by (apply get_left_Done; eauto 10).
    unfold ptr_eqb. rewrite bool_decide_false by done.
    rewrite (bind_run _ _ s (right gd) s) by (apply get_right_Done; eauto 10).
    by rewrite bool_decide_false by done. }
  unfold pllmod_rtree_regraft.
  rewrite (bind_run _ _ _ _ _ Hgn).
  rewrite (bind_run _ _ s false s) by (by rewrite (bind_run _ _ _ _ _ Hgp)).
  rewrite (bind_run _ _ _ _ _ Hgn), (bind_run _ _ _ _ _ Hgt).
  rewrite (bind_run _ _ s (PLL_FAILURE, None)
             (mk_state (heap s) (Some PLLMOD_TREE_ERROR_INVALID_TREE)))
    by (by rewrite (bind_run _ _ _ _ _ Hsis)).
  done.
Qed.

Lemma regraft_inconsistent_target_witness :
  heap pruned_A !! A = Some (mk_rtree None None (Some R)) ∧
  heap pruned_A !! R = Some (mk_rtree (Some A) None None) ∧
  heap pruned_A !! B = Some (mk_rtree (Some C) (Some D) (Some R)) ∧
  pllmod_rtree_regraft (Some A) (Some B) pruned_A
    = Done PLL_FAILURE
        (mk_state (heap pruned_A) (Some PLLMOD_TREE_ERROR_INVALID_TREE)).
Proof.
  do 3 (split; [reflexivity|]).
  apply (regraft_inconsistent_target pruned_A A R B R
           (mk_rtree None None (Some R)) (mk_rtree (Some A) None None)
           (mk_rtree (Some C) (Some D) (Some R)) (mk_rtree (Some A) None None));
    try reflexivity; discriminate.
Defined.

(** ** The SPR composer *)

(** X11. [pllmod_rtree_spr] never returns success, on any heap and for
    any arguments: whenever it returns, it returns failure, the root
    handle is what the caller passed, and the nodes are either untouched or
    exactly as the prune left them, nothing having been regrafted. *)
Theorem spr_always_fails (fuel : nat) (p_node r_tree : ptr)
    (root root' : option ptr) (rb rb' : option pll_tree_rollback_t)
    (st : pll_status) (s s' : state) :
  pllmod_rtree_spr fuel p_node r_tree root rb s = Done (st, root', rb') s' →
  st = PLL_FAILURE ∧ root' = root ∧
  (heap s' = heap s ∨
   ∃ c s2, pllmod_rtree_prune p_node s = Done (Some c) s2 ∧ heap s' = heap s2).
Proof.
  intros (-> & -> & rb1 & s1 & Hcase)%spr_inv. do 2 (split; [done|]).
  destruct Hcase as [(Hsave & _ & ->)|(_ & _ & [Hnull|(c & s2 & Hprune & ->)])].
  - left.
    apply spr_save_rollback_inv in Hsave as [(_ & _ & Hsis)|([=] & _)].
    apply get_sister_inv in Hsis as (? & ? & _ & _ & Hcase).
    destruct Hcase as [(_ & _ & ->)|(? & ? & _ & _ & Hcase)]; [done|].
    by destruct Hcase as [(_ & _ & ->)|[(_ & _ & _ & ->)|(_ & _ & _ & ->)]].
  - left. by eapply prune_null_heap.
  - right. by exists c, s2.
Qed.

Lemma spr_always_fails_witness :
  pllmod_rtree_spr 5 (Some C) (Some A) (Some (Some R)) None tree
    = Done (PLL_FAILURE, Some (Some R), None)
        (mk_state (heap pruned_C) (Some PLLMOD_TREE_ERROR_SPR_INVALID_NODE)) ∧
  PLL_FAILURE = PLL_FAILURE ∧ Some (Some R) = Some (Some R) ∧
  (heap pruned_C = heap tree ∨
   ∃ c s2, pllmod_rtree_prune (Some C) tree = Done (Some c) s2 ∧
           heap pruned_C = heap s2).
Proof.
  assert (H : pllmod_rtree_spr 5 (Some C) (Some A) (Some (Some R)) None tree
    = Done (PLL_FAILURE, Some (Some R), None)
        (mk_state (heap pruned_C) (Some PLLMOD_TREE_ERROR_SPR_INVALID_NODE)))
    by (vm_compute; reflexivity).
  split; [exact H|].
  exact (spr_always_fails _ _ _ _ _ _ _ _ _ _ H).
Defined.

(** X12. When the prune node names a parent neither of whose child cells
    holds it, [pllmod_rtree_spr] fails with InvalidTree before anything
    else happens: the nodes, the root handle and a rollback record the
    caller passed are all left as they were. *)
Theorem spr_lookup_failure (fuel : nat) (s : state) (n p : addr)
    (nd pd : pll_rtree_t) (r_tree : ptr) (root : option ptr)
    (rollback_info : option pll_tree_rollback_t) :
  heap s !! n = Some nd → parent nd = Some p → heap s !! p = Some pd →
  left pd ≠ Some n → right pd ≠ Some n →
  pllmod_rtree_spr fuel (Some n) r_tree root rollback_info s
    = Done (PLL_FAILURE, root, rollback_info)
        (mk_state (heap s) (Some PLLMOD_TREE_ERROR_INVALID_TREE)).
Proof.
  intros Hn Hp Hpd Hl Hr.
  assert (pllmod_rtree_get_sister (Some n) s
          = Done (PLL_FAILURE, None, None)
              (mk_state (heap s) (Some PLLMOD_TREE_ERROR_INVALID_TREE)))
    as Hsis.
  { unfold pllmod_rtree_get_sister.
    rewrite (bind_run _ _ _ _ _ (get_parent_run s n nd Hn)), Hp.
    rewrite (bind_run _ _ s (left pd) s) by (apply get_left_Done; eauto 10).
    unfold ptr_eqb. rewrite bool_decide_false by done.
    rewrite (bind_run _ _ s (right pd) s) by (apply get_right_Done; eauto 10).
    by rewrite bool_decide_false by done. }
  unfold pllmod_rtree_spr, spr_save_rollback.
  by rewrite (bind_run _ _ s (PLL_FAILURE, rollback_info)
                (mk_state (heap s) (Some PLLMOD_TREE_ERROR_INVALID_TREE)))
    by (by rewrite (bind_run _ _ _ _ _ Hsis)).
Qed.

Lemma spr_lookup_failure_witness :
  heap ExampleBroken.tree !! B = Some (mk_rtree (Some C) (Some D) (Some R)) ∧
  heap ExampleBroken.tree !! R
    = Some (mk_rtree (Some A) (Some ExampleBroken.X) None) ∧
  pllmod_rtree_spr 5 (Some B) (Some A) (Some (Some R))
      (Some (mk_rollback PLLMOD_TREE_REARRANGE_OTHER 0 None None))
      ExampleBroken.tree
    = Done (PLL_FAILURE, Some (Some R),
            Some (mk_rollback PLLMOD_TREE_REARRANGE_OTHER 0 None None))
        (mk_state (heap ExampleBroken.tree)
                  (Some PLLMOD_TREE_ERROR_INVALID_TREE)).
Proof.
  do 2 (split; [reflexivity|]).
  apply (spr_lookup_failure 5 ExampleBroken.tree B R
           (mk_rtree (Some C) (Some D) (Some R))
           (mk_rtree (Some A) (Some ExampleBroken.X) None));
    try reflexivity; discriminate.
Defined.

(** ** The bounded-distance enumerator *)

(** The window moves with the depth of the root. *)
Lemma window_shift t : ∀ d k lo hi,
  window t (d + k) (lo + k) (hi + k) = window t d lo hi.
Proof.
  induction t as [a|a l IHl r IHr]; intros d k lo hi; simpl.
  - f_equal. by rewrite (bool_decide_ext (lo + k < d + k ≤ hi + k) (lo < d ≤ hi)) by lia.
  - rewrite (bool_decide_ext (lo + k < d + k ≤ hi + k) (lo < d ≤ hi)) by lia.
    replace (d + k + 1) with (d + 1 + k) by lia.
    by rewrite IHl, IHr.
Qed.

Lemma window_above t : ∀ d lo hi, hi < d → window t d lo hi = [].
Proof.
  induction t as [a|a l IHl r IHr]; intros d lo hi Hhi; simpl;
    rewrite bool_decide_false by lia; [done|].
  by rewrite IHl, IHr by lia.
Qed.


Lemma written_nil buf i : written buf i [] = (buf, Z.of_nat i).
Proof.
  unfold written. simpl. by rewrite !Nat.add_0_r, take_drop.
Qed.

Lemma written_length buf i out :
  (i + length out ≤ length buf)%nat →
  length (written buf i out).1 = length buf.
Proof.
  intros H. unfold written. simpl.
  rewrite !length_app, length_take, length_fmap, length_drop. lia.
Qed.

Lemma written_app buf i o1 o2 :
  (i + length o1 + length o2 ≤ length buf)%nat →
  written (written buf i o1).1 (i + length o1) o2 = written buf i (o1 ++ o2).
Proof.
  intros H. unfold written. simpl. f_equal; [|rewrite length_app; lia].
  rewrite fmap_app, length_app, <- !app_assoc.
  rewrite (app_assoc (take i buf)).
  rewrite take_app_length' by (rewrite length_app, length_take, length_fmap; lia).
  rewrite <- !app_assoc. do 3 f_equal.
  rewrite (app_assoc (take i buf)).
  replace (i + length o1 + length o2)%nat
    with (length (take i buf ++ (Some <$> o1)) + length o2)%nat
    by (rewrite length_app, length_take, length_fmap; lia).
  rewrite drop_app_add, drop_drop. f_equal. lia.
Qed.

Lemma emit_written a buf i s :
  (i < length buf)%nat → Z.of_nat i + 1 < 4294967296 →
  emit (Some a) (buf, Z.of_nat i) s = Done (written buf i [a]) s.
Proof.
  intros Hi Hw. unfold emit, written. rewrite Nat2Z.id.
  rewrite bool_decide_true by done. unfold mret, M_ret. simpl. do 2 f_equal.
  - rewrite insert_take_drop by done. do 3 f_equal. lia.
  - rewrite Z.mod_small by lia. lia.
Qed.

Lemma int_pred_run x s : INT_MIN ≤ x - 1 → int_pred x s = Done (x - 1) s.
Proof. intros H. by apply int_pred_Done. Qed.

Lemma down_rec_step depth root ob mn mx :
  0 ≤ mx →
  rtree_nodes_at_node_dist_down_rec depth root ob mn mx
  = (ob ← (if mn <? 0 then emit root ob else mret ob);
     l ← get_left root;
     both ← match l with
            | None => mret false
            | Some _ => r ← get_right root; mret (bool_decide (is_Some r))
            end;
     if negb both then mret ob
     else
       match depth with
       | O => unfinished
       | S depth' =>
           l ← get_left root;
           min1 ← int_pred mn;
           max1 ← int_pred mx;
           ob ← rtree_nodes_at_node_dist_down_rec depth' l ob min1 max1;
           r ← get_right root;
           min1 ← int_pred mn;
           max1 ← int_pred mx;
           rtree_nodes_at_node_dist_down_rec depth' r ob min1 max1
       end).
Proof.
  intros Hmx. destruct depth; simpl; by rewrite (proj2 (Z.ltb_ge mx 0)).
Qed.

Lemma root_part_run a buf i mn mx s :
  0 ≤ mx →
  (i + length (if bool_decide (mn < 0 ≤ mx)%Z then [a] else []) ≤ length buf)%nat →
  Z.of_nat (i + length (if bool_decide (mn < 0 ≤ mx)%Z then [a] else []))
    < 4294967296 →
  (if mn <? 0 then emit (Some a) (buf, Z.of_nat i) else mret (buf, Z.of_nat i)) s
  = Done (written buf i (if bool_decide (mn < 0 ≤ mx)%Z then [a] else [])) s.
Proof.
  intros Hmx Hcap Hwrap. destruct (Z.ltb_spec mn 0).
  - rewrite bool_decide_true in * by lia. simpl in *.
    apply emit_written; lia.
  - rewrite bool_decide_false in * by lia. by rewrite written_nil.
Qed.

Lemma down_rec_window t : ∀ depth buf i mn mx s,
  in_heap (heap s) t →
  mx < Z.of_nat depth →
  (i + length (window t 0 mn mx) ≤ length buf)%nat →
  Z.of_nat (i + length (window t 0 mn mx)) < 4294967296 →
  (0 ≤ mx → INT_MIN ≤ mn - mx - 1) →
  rtree_nodes_at_node_dist_down_rec depth (Some (root_of t))
      (buf, Z.of_nat i) mn mx s
    = Done (written buf i (window t 0 mn mx)) s.
Proof.
  induction t as [a|a l IHl r IHr]; intros depth buf i mn mx s Hin Hdepth Hcap Hwrap Hint.
  all: destruct (Z.ltb_spec mx 0) as [Hneg|Hpos];
    [rewrite window_above by lia; rewrite written_nil;
     destruct depth; simpl; by rewrite (proj2 (Z.ltb_lt mx 0))|].
  all: rewrite down_rec_step by done.
  - destruct Hin as (nd & Ha & Hleaf).
    simpl in Hcap, Hwrap |- *. rewrite app_nil_r in *.
    rewrite (bind_run _ _ _ _ _ (root_part_run a buf i mn mx s Hpos Hcap Hwrap)).
    rewrite (bind_run _ _ s (left nd) s) by (apply get_left_Done; eauto 10).
    rewrite (bind_run _ _ s false s); [done|].
    destruct (left nd) as [l0|] eqn:Hl; [|done].
    destruct Hleaf as [?|Hr]; [done|].
    rewrite (bind_run _ _ s (right nd) s) by (apply get_right_Done; eauto 10).
    by rewrite Hr.
  - destruct Hin as (nd & Ha & Hl & Hr & Hinl & Hinr).
    destruct depth as [|depth]; [lia|].
    assert (window l (0 + 1) mn mx = window l 0 (mn - 1) (mx - 1)) as Hwl.
    { rewrite <- (window_shift l 0 1 (mn - 1) (mx - 1)). f_equal; lia. }
    assert (window r (0 + 1) mn mx = window r 0 (mn - 1) (mx - 1)) as Hwr.
    { rewrite <- (window_shift r 0 1 (mn - 1) (mx - 1)). f_equal; lia. }
    simpl in Hcap, Hwrap |- *. rewrite Hwl, Hwr in *.
    set (rp := if bool_decide (mn < 0 ≤ mx) then [a] else []) in *.
    set (wl := window l 0 (mn - 1) (mx - 1)) in *.
    set (wr := window r 0 (mn - 1) (mx - 1)) in *.
    rewrite !length_app in Hcap, Hwrap.
    rewrite (bind_run _ _ _ _ _ (root_part_run a buf i mn mx s Hpos
               ltac:(subst rp; lia) ltac:(subst rp; lia))).
    fold rp.
    rewrite (bind_run _ _ s (left nd) s) by (apply get_left_Done; eauto 10).
    rewrite (bind_run _ _ s true s).
    2:{ rewrite Hl.
        rewrite (bind_run _ _ s (right nd) s) by (apply get_right_Done; eauto 10).
        by rewrite Hr. }
    cbn [negb].
    rewrite (bind_run _ _ s (left nd) s) by (apply get_left_Done; eauto 10).
    rewrite (bind_run _ _ _ _ _ (int_pred_run mn s ltac:(lia))).
    rewrite (bind_run _ _ _ _ _ (int_pred_run mx s ltac:(unfold INT_MIN; lia))).
    rewrite Hl.
    change (written buf i rp)
      with ((written buf i rp).1, Z.of_nat (i + length rp)).
    rewrite (bind_run _ _ _ _ _
               (IHl depth (written buf i rp).1 (i + length rp)%nat
                  (mn - 1) (mx - 1) s Hinl ltac:(lia)
                  ltac:(rewrite written_length by lia; fold wl; lia)
                  ltac:(fold wl; lia) ltac:(lia))).
    fold wl. rewrite written_app by lia.
    rewrite (bind_run _ _ s (right nd) s) by (apply get_right_Done; eauto 10).
    rewrite (bind_run _ _ _ _ _ (int_pred_run mn s ltac:(lia))).
    rewrite (bind_run _ _ _ _ _ (int_pred_run mx s ltac:(unfold INT_MIN; lia))).
    rewrite Hr.
    change (written buf i (rp ++ wl))
      with ((written buf i (rp ++ wl)).1, Z.of_nat (i + length (rp ++ wl))).
    rewrite (IHr depth (written buf i (rp ++ wl)).1 (i + length (rp ++ wl))%nat
               (mn - 1) (mx - 1) s Hinr ltac:(lia)
               ltac:(rewrite written_length by (rewrite length_app; lia);
                     fold wr; rewrite length_app; lia)
               ltac:(fold wr; rewrite length_app; lia) ltac:(lia)).
    fold wr. rewrite written_app by (rewrite length_app; lia).
    by rewrite <- app_assoc.
Qed.

(** X14. On a subtree held by the heap, with room in the buffer and no
    [int] or counter overflow, the descent appends to the buffer, in
    preorder, exactly the nodes of the subtree whose depth [d] below the
    subtree's root (itself at depth 0) satisfies
    [min_distance < d ≤ max_distance], and counts them; the lower bound is
    exclusive, and a node lacking a child is not descended into.  The
    state is unchanged. *)
Theorem descent_lists_window (t : shape) (buf : list ptr) (i : nat)
    (min_distance max_distance : Z) (s : state) :
  in_heap (heap s) t →
  (i + length (window t 0 min_distance max_distance) ≤ length buf)%nat →
  Z.of_nat (i + length (window t 0 min_distance max_distance)) < 4294967296 →
  (0 ≤ max_distance → INT_MIN ≤ min_distance - max_distance - 1) →
  rtree_nodes_at_node_dist_down (Some (root_of t)) (buf, Z.of_nat i)
      min_distance max_distance s
    = Done (written buf i (window t 0 min_distance max_distance)) s.
Proof.
  intros Hin Hcap Hwrap Hint. unfold rtree_nodes_at_node_dist_down.
  apply down_rec_window; try done. lia.
Qed.




Lemma descent_lists_window_witness :
  in_heap (heap tree) (Node B (Leaf C) (Leaf D)) ∧
  rtree_nodes_at_node_dist_down (Some B)
      ([None; None; None; None; None], 1) (-1) 1 tree
    = Done ([None; Some B; Some C; Some D; None], 4) tree.
Proof.
  assert (Hin : in_heap (heap tree) (Node B (Leaf C) (Leaf D))).
  { exists (mk_rtree (Some C) (Some D) (Some R)).
    split; [reflexivity|]. split; [reflexivity|]. split; [reflexivity|].
    split; exists (mk_rtree None None (Some B));
      (split; [reflexivity | left; reflexivity]). }
  split; [exact Hin|].
  apply (descent_lists_window (Node B (Leaf C) (Leaf D))
           [None; None; None; None; None] 1 (-1) 1 tree Hin);
    [simpl; lia | simpl; lia | unfold INT_MIN; lia].
Defined.

Lemma emit_frame x ob s ob' s' :
  emit x ob s = Done ob' s' → s' = s ∧ length ob'.1 = length ob.1.
Proof.
  unfold emit. destruct ob as [buf n]. case_bool_decide; [|done].
  intros [= <- <-]. simpl. by rewrite length_insert.
Qed.

Lemma down_rec_frame depth : ∀ root ob mn mx s ob' s',
  rtree_nodes_at_node_dist_down_rec depth root ob mn mx s = Done ob' s' →
  s' = s ∧ length ob'.1 = length ob.1.
Proof.
  induction depth as [|depth IH]; intros root ob mn mx s ob' s' H;
    destruct (Z.ltb_spec mx 0) as [Hneg|Hpos].
  1,3: simpl in H; rewrite (proj2 (Z.ltb_lt mx 0)) in H by done;
       by apply mret_Done in H as [<- <-].
  all: rewrite down_rec_step in H by done.
  all: apply bind_Done in H as (ob1 & s1 & Hroot & H).
  all: assert (s1 = s ∧ length ob1.1 = length ob.1) as [-> Hlen1]
         by (destruct (mn <? 0);
             [by apply emit_frame in Hroot
             |by apply mret_Done in Hroot as [<- <-]]).
  all: apply bind_Done in H as (l & ? & (? & ? & _ & _ & _ & ->)%get_left_Done & H).
  all: apply bind_Done in H as (both & s2 & Hboth & H).
  all: assert (s2 = s) as ->
         by (destruct l;
             [by apply bind_Done in Hboth
                as (? & ? & (? & ? & _ & _ & _ & ->)%get_right_Done & [_ <-]%mret_Done)
             |by apply mret_Done in Hboth as [_ <-]]).
  all: destruct both; cbn [negb] in H;
         [|apply mret_Done in H as [<- <-]; by rewrite Hlen1].
  - done.
  - apply bind_Done in H as (l' & ? & (? & ? & _ & _ & _ & ->)%get_left_Done & H).
    apply bind_Done in H as (? & ? & (_ & _ & ->)%int_pred_Done & H).
    apply bind_Done in H as (? & ? & (_ & _ & ->)%int_pred_Done & H).
    apply bind_Done in H as (ob2 & s3 & [-> Hlen2]%IH & H).
    apply bind_Done in H as (r' & ? & (? & ? & _ & _ & _ & ->)%get_right_Done & H).
    apply bind_Done in H as (? & ? & (_ & _ & ->)%int_pred_Done & H).
    apply bind_Done in H as (? & ? & (_ & _ & ->)%int_pred_Done & H).
    apply IH in H as [-> Hlen3]. split; [done | congruence].
Qed.

Lemma loop_frame fuel : ∀ c ob mn mx s st ob' s',
  nodes_at_node_dist_loop fuel c ob mn mx s = Done (st, ob') s' →
  heap s' = heap s ∧ (st = PLL_SUCCESS → s' = s) ∧
  length ob'.1 = length ob.1.
Proof.
  induction fuel as [|fuel IH]; intros c ob mn mx s st ob' s' H;
    cbn [nodes_at_node_dist_loop] in H;
    apply bind_Done in H as (cp & ? & (? & ? & _ & _ & _ & ->)%get_parent_Done & H);
    (destruct cp; [|by apply mret_Done in H as [[= <- <-] <-]]); [done|].
  apply bind_Done in H as ([[st1 ?] sister_ptr] & s1 & Hsis & H).
  destruct st1.
  2:{ apply bind_Done in H as ([] & ? & [_ ->]%assert_errno_Done & [[= <- <-] <-]%mret_Done).
      apply get_sister_inv in Hsis as (? & ? & _ & _ & Hcase).
      destruct Hcase as [(_ & [=] & _)|(? & ? & _ & _ & Hcase)].
      by destruct Hcase as [(_ & [=] & _)|[(_ & _ & [=] & _)|(_ & _ & _ & ->)]]. }
  apply get_sister_success_state in Hsis as ->.
  apply bind_Done in H as (? & ? & (_ & _ & ->)%int_pred_Done & H).
  apply bind_Done in H as (? & ? & (_ & _ & ->)%int_pred_Done & H).
  apply bind_Done in H as (cr & ? & (? & ? & _ & _ & _ & ->)%get_parent_Done & H).
  apply bind_Done in H as (ob1 & s1 & Hroot & H).
  assert (s1 = s ∧ length ob1.1 = length ob.1) as [-> Hlen1].
  { match type of Hroot with (if ?b then _ else _) _ = _ => destruct b end;
      [by apply emit_frame in Hroot
      |by apply mret_Done in Hroot as [<- <-]]. }
  apply bind_Done in H as (sis & ? & (? & ? & _ & _ & _ & ->)%load_slot_Done & H).
  apply bind_Done in H as (? & ? & (_ & _ & ->)%int_pred_Done & H).
  apply bind_Done in H as (? & ? & (_ & _ & ->)%int_pred_Done & H).
  apply bind_Done in H as (ob2 & s2 & [-> Hlen2]%down_rec_frame & H).
  apply IH in H as (Hheap & Hst & Hlen3).
  split; [done|]. split; [done|]. congruence.
Qed.

(** X16. The enumerator is read-only on the tree: whatever it returns,
    the nodes are those it started from and the buffer has kept its
    length; on success the error register is unchanged too. *)
Theorem nodes_at_node_dist_read_only (fuel : nat) (root : ptr)
    (buf buf' : list ptr) (k k' : Z) (min_distance max_distance : Z)
    (st : pll_status) (s s' : state) :
  pllmod_rtree_nodes_at_node_dist fuel root (buf, k)
      min_distance max_distance s = Done (st, (buf', k')) s' →
  heap s' = heap s ∧ (st = PLL_SUCCESS → s' = s) ∧
  length buf' = length buf.
Proof.
  unfold pllmod_rtree_nodes_at_node_dist. case_match.
  - by intros ([] & ? & ->%set_error_Done & [[= <- <- <-] <-]%mret_Done)%bind_Done.
  - by intros Hloop%loop_frame.
Qed.

Lemma nodes_at_node_dist_read_only_witness :
  pllmod_rtree_nodes_at_node_dist 3 (Some C)
      ([None; None; None; None; None], 0) 0 3 tree
    = Done (PLL_SUCCESS, ([Some B; Some D; Some R; Some A; None], 4)) tree ∧
  heap tree = heap tree ∧ (PLL_SUCCESS = PLL_SUCCESS → tree = tree) ∧
  length [Some B; Some D; Some R; Some A; None (A := addr)]
    = length [None; None; None; None; None (A := addr)].
Proof.
  assert (H : pllmod_rtree_nodes_at_node_dist 3 (Some C)
      ([None; None; None; None; None], 0) 0 3 tree
    = Done (PLL_SUCCESS, ([Some B; Some D; Some R; Some A; None], 4)) tree)
    by (vm_compute; reflexivity).
  split; [exact H|].
  exact (nodes_at_node_dist_read_only _ _ _ _ _ _ _ _ _ _ _ H).
Defined.

(** X17. For a parentless reference node and any valid range, the
    enumerator returns success with the count 0 and the buffer untouched:
    the loop is not entered, so neither the reference node nor anything
    below it is listed. *)
Theorem nodes_at_node_dist_of_root (fuel : nat) (s : state) (n : addr)
    (nd : pll_rtree_t) (buf : list ptr) (k min_distance max_distance : Z) :
  heap s !! n = Some nd → parent nd = None →
  min_distance ≤ max_distance →
  pllmod_rtree_nodes_at_node_dist fuel (Some n) (buf, k)
      min_distance max_distance s
    = Done (PLL_SUCCESS, (buf, 0)) s.
Proof.
  intros Hn Hp Hrange. unfold pllmod_rtree_nodes_at_node_dist.
  rewrite (proj2 (Z.ltb_ge max_distance min_distance)) by lia.
  destruct fuel; simpl;
    by rewrite (bind_run _ _ _ _ _ (get_parent_run s n nd Hn)), Hp.
Qed.

Lemma nodes_at_node_dist_of_root_witness :
  heap tree !! R = Some (mk_rtree (Some A) (Some B) None) ∧
  pllmod_rtree_nodes_at_node_dist 0 (Some R)
      ([None; None; None; None; None], 9) 0 2 tree
    = Done (PLL_SUCCESS, ([None; None; None; None; None], 0)) tree.
Proof.
  split; [reflexivity|].
  apply (nodes_at_node_dist_of_root 0 tree R
           (mk_rtree (Some A) (Some B) None));
    [reflexivity | reflexivity | lia].
Defined.

(** X18. When the reference node names a parent neither of whose child
    cells holds it, the enumerator (given at least one iteration) fails
    with InvalidTree, the count having been reset to 0 and the buffer and
    the nodes being untouched. *)
Theorem nodes_at_node_dist_inconsistent (fuel : nat) (s : state) (n p : addr)
    (nd pd : pll_rtree_t) (buf : list ptr) (k min_distance max_distance : Z) :
  heap s !! n = Some nd → parent nd = Some p → heap s !! p = Some pd →
  left pd ≠ Some n → right pd ≠ Some n →
  min_distance ≤ max_distance →
  pllmod_rtree_nodes_at_node_dist (S fuel) (Some n) (buf, k)
      min_distance max_distance s
    = Done (PLL_FAILURE, (buf, 0))
        (mk_state (heap s) (Some PLLMOD_TREE_ERROR_INVALID_TREE)).
Proof.
  intros Hn Hp Hpd Hl Hr Hrange.
  assert (pllmod_rtree_get_sister (Some n) s
          = Done (PLL_FAILURE, None, None)
              (mk_state (heap s) (Some PLLMOD_TREE_ERROR_INVALID_TREE)))
    as Hsis.
  { unfold pllmod_rtree_get_sister.
    rewrite (bind_run _ _ _ _ _ (get_parent_run s n nd Hn)), Hp.
    rewrite (bind_run _ _ s (left pd) s) by (apply get_left_Done; eauto 10).
    unfold ptr_eqb. rewrite bool_decide_false by done.
    rewrite (bind_run _ _ s (right pd) s) by (apply get_right_Done; eauto 10).
    by rewrite bool_decide_false by done. }
  unfold pllmod_rtree_nodes_at_node_dist.
  rewrite (proj2 (Z.ltb_ge max_distance min_distance)) by lia.
  cbn [nodes_at_node_dist_loop].
  rewrite (bind_run _ _ _ _ _ (get_parent_run s n nd Hn)), Hp.
  by rewrite (bind_run _ _ _ _ _ Hsis).
Qed.

Lemma nodes_at_node_dist_inconsistent_witness :
  heap ExampleBroken.tree !! B = Some (mk_rtree (Some C) (Some D) (Some R)) ∧
  heap ExampleBroken.tree !! R
    = Some (mk_rtree (Some A) (Some ExampleBroken.X) None) ∧
  pllmod_rtree_nodes_at_node_dist 1 (Some B)
      ([None; None; None], 7) 0 2 ExampleBroken.tree
    = Done (PLL_FAILURE, ([None; None; None], 0))
        (mk_state (heap ExampleBroken.tree)
                  (Some PLLMOD_TREE_ERROR_INVALID_TREE)).
Proof.
  do 2 (split; [reflexivity|]).
  apply (nodes_at_node_dist_inconsistent 0 ExampleBroken.tree B R
           (mk_rtree (Some C) (Some D) (Some R))
           (mk_rtree (Some A) (Some ExampleBroken.X) None));
    try reflexivity; try discriminate; lia.
Defined.
